(** * MoviePilot: the module dispatch of [ChainBase]

    A shallow embedding of [app/chain/__init__.py]: the private method
    [ChainBase.__run_module], which runs one named method on every module the
    module manager returns for it and merges the results, and the public
    methods of [ChainBase], which all forward to it. *)

From Stdlib Require Import ZArith String.
From stdpp Require Import base option list strings gmap.

#[local] Set Warnings "-register-all".

(** ** Python values

    The values that travel through [__run_module]: [None], tuples, lists and
    everything else.  The code inspects a value in three ways only:
    [x is None], [isinstance(x, tuple)] and [isinstance(x, list)]. *)

Inductive value : Type :=
  | VNone
  | VBool (b : bool)
  | VInt (z : Z)
  | VStr (s : string)
  | VTuple (items : list value)
  | VList (items : list value)
  | VObj (id : positive).

(** [x is None] *)
Definition is_None (x : value) : bool :=
  match x with VNone => true | _ => false end.

(** [isinstance(x, tuple)] *)
Definition isinstance_tuple (x : value) : bool :=
  match x with VTuple _ => true | _ => false end.

(** [isinstance(x, list)] *)
Definition isinstance_list (x : value) : bool :=
  match x with VList _ => true | _ => false end.

(** The elements that iterating over a tuple or a list goes through. *)
Definition elements (x : value) : list value :=
  match x with
  | VTuple items | VList items => items
  | _ => []
  end.

(** A raised exception, by its class name and its message: an instance of
    [Exception], the class that the handler of [__run_module] names, that
    [str] turns into its message.  The other exceptions are those of [Full],
    further down. *)
Record exn : Type := Exn { exn_class : string; exn_msg : string }.

(** What evaluating a call leaves behind: a returned value or a raised
    [Exception]. *)
Inductive outcome : Type :=
  | Returns (v : value)
  | Raises (e : exn).

(** ** Modules and the module manager

    A module is an object with a class name and attributes; the attributes
    looked up by [getattr(module, method)] are bound methods, called with the
    positional arguments [args] and the keyword arguments [kwargs], a dict
    from parameter names to values.  One run of [__run_module] calls a module
    at most once per place it has in the list, so a bound method is given by
    how its call ends for the arguments of that run. *)

Abbreviation kwargs := (gmap string value).

Abbreviation bound_method := (list value → kwargs → outcome).

Record module : Type := Module_ {
  class_name : string;
  attrs : gmap string bound_method
}.

(** [ModuleManager]: only [get_modules] is used, and it is not part of this
    file of the repository; it is taken as given, an ordered list of modules
    for every method name. *)
Record ModuleManager : Type := { get_modules : string → list module }.

(** [ChainBase]'s [__init__] sets [modulemanager] and [eventmanager]; no
    method of the class reads [eventmanager]. *)
Record ChainBase : Type := { modulemanager : ModuleManager }.

(** ** Effects

    One run of [__run_module] has a local variable [result], writes to the
    logger and calls into modules; the calls and log lines are recorded, in
    order, in a trace. *)

Inductive event : Type :=
  | LogDebug (method : string)
  | Invoke (cls method : string) (args : list value) (kw : kwargs)
  | LogError (method cls : string) (err : exn).

Record frame : Type := Frame { result : value; trace : list event }.

(** Computations over a frame that return or raise. *)
Definition M (A : Type) : Type := frame → (exn + A) * frame.

#[global] Instance M_ret : MRet M := λ A a fr, (inr a, fr).

#[global] Instance M_bind : MBind M := λ A B k c fr,
  match c fr with
  | (inl e, fr') => (inl e, fr')
  | (inr a, fr') => k a fr'
  end.

Definition get_result : M value := λ fr, (inr (result fr), fr).

Definition set_result (v : value) : M unit :=
  λ fr, (inr tt, {| result := v; trace := trace fr |}).

Definition emit (ev : event) : M unit :=
  λ fr, (inr tt, {| result := result fr; trace := trace fr ++ [ev] |}).

Definition raise {A : Type} (e : exn) : M A := λ fr, (inl e, fr).

(** [try: body except Exception as err: handler], for the exceptions of this
    part, which are all instances of [Exception]. *)
Definition try_except {A : Type} (body : M A) (handler : exn → M A) : M A :=
  λ fr,
    match body fr with
    | (inl err, fr') => handler err fr'
    | (inr a, fr') => (inr a, fr')
    end.

Definition AttributeError (cls name : string) : exn :=
  Exn "AttributeError"
      ("'" +:+ cls +:+ "' object has no attribute '" +:+ name +:+ "'").

(** [getattr(module, name)] *)
Definition getattr (m : module) (name : string) : M bound_method :=
  match attrs m !! name with
  | Some f => mret f
  | None => raise (AttributeError (class_name m) name)
  end.

(** Calling the bound method [f] of [m], found under [name], with [args] and
    [kwargs]. *)
Definition call (m : module) (name : string) (f : bound_method)
    (args : list value) (kw : kwargs) : M value :=
  emit (Invoke (class_name m) name args kw);;
  match f args kw with
  | Returns v => mret v
  | Raises e => raise e
  end.

Definition logger_debug (method : string) : M unit := emit (LogDebug method).

(** [logger.error] with the line of the handler, which names the method, the
    class of the module and the exception (and prints the traceback); the
    exceptions of this part are formatted without more ado. *)
Definition logger_error (method cls : string) (err : exn) : M unit :=
  emit (LogError method cls err).

(** ** [__run_module] *)

(** The nested function [is_result_empty(ret)].  Its [else] branch tests the
    enclosing [result], not its parameter [ret]; the only call passes
    [result] for [ret]. *)
Definition is_result_empty (result ret : value) : bool :=
  if isinstance_tuple ret then forallb is_None (elements ret)
  else is_None result.

(** How an iteration of the [for] loop ends: it falls through to the next
    module, or it executes [break]. *)
Inductive signal : Type := Next | Break.

(** The body of [for module in modules:]. *)
Definition loop_body (method : string) (args : list value) (kw : kwargs)
    (m : module) : M signal :=
  try_except
    (r ← get_result;
     if is_result_empty r r then
       f ← getattr m method;
       v ← call m method f args kw;
       set_result v;;
       mret Next
     else
       match r with
       | VList xs =>
           f ← getattr m method;
           temp ← call m method f args kw;
           match temp with
           | VList ys => set_result (VList (xs ++ ys))
           | _ => mret tt
           end;;
           mret Next
       | _ => mret Break
       end)
    (λ err, logger_error method (class_name m) err;; mret Next).

Fixpoint for_each (modules : list module) (body : module → M signal) : M unit :=
  match modules with
  | [] => mret tt
  | m :: rest =>
      s ← body m;
      match s with
      | Next => for_each rest body
      | Break => mret tt
      end
  end.

Definition run_module (self : ChainBase) (method : string)
    (args : list value) (kw : kwargs) : M value :=
  logger_debug method;;
  set_result VNone;;
  for_each (get_modules (modulemanager self) method) (loop_body method args kw);;
  get_result.

(** A call of [__run_module] from outside: what the caller gets (a value, or
    an exception that came out of the call) and the trace of the run. *)
Definition dispatch (self : ChainBase) (method : string)
    (args : list value) (kw : kwargs) : (exn + value) * list event :=
  let '(r, fr) := run_module self method args kw {| result := VNone; trace := [] |} in
  (r, trace fr).

(** ** The public methods

    Every public method of [ChainBase] is one [return self.__run_module(...)]
    with the method's name as a string and keyword arguments only. *)

Definition prepare_recognize (self : ChainBase)
    (title subtitle : value) : M value :=
  run_module self "prepare_recognize" []
    {[ "title" := title;
       "subtitle" := subtitle ]}.

Definition recognize_media (self : ChainBase)
    (meta mtype tmdbid : value) : M value :=
  run_module self "recognize_media" []
    {[ "meta" := meta;
       "mtype" := mtype;
       "tmdbid" := tmdbid ]}.

Definition obtain_image (self : ChainBase) (mediainfo : value) : M value :=
  run_module self "obtain_image" [] {[ "mediainfo" := mediainfo ]}.

Definition douban_info (self : ChainBase) (doubanid : value) : M value :=
  run_module self "douban_info" [] {[ "doubanid" := doubanid ]}.

Definition tvdb_info (self : ChainBase) (tvdbid : value) : M value :=
  run_module self "tvdb_info" [] {[ "tvdbid" := tvdbid ]}.

Definition tmdb_info (self : ChainBase) (tmdbid mtype : value) : M value :=
  run_module self "tmdb_info" [] {[ "tmdbid" := tmdbid; "mtype" := mtype ]}.

Definition message_parser (self : ChainBase)
    (body form args : value) : M value :=
  run_module self "message_parser" []
    {[ "body" := body;
       "form" := form;
       "args" := args ]}.

Definition webhook_parser (self : ChainBase)
    (body form args : value) : M value :=
  run_module self "webhook_parser" []
    {[ "body" := body;
       "form" := form;
       "args" := args ]}.

Definition search_medias (self : ChainBase) (meta : value) : M value :=
  run_module self "search_medias" [] {[ "meta" := meta ]}.

Definition search_torrents (self : ChainBase)
    (mediainfo sites keyword : value) : M value :=
  run_module self "search_torrents" []
    {[ "mediainfo" := mediainfo;
       "sites" := sites;
       "keyword" := keyword ]}.

Definition refresh_torrents (self : ChainBase) (sites : value) : M value :=
  run_module self "refresh_torrents" [] {[ "sites" := sites ]}.

Definition filter_torrents (self : ChainBase)
    (torrent_list season_episodes : value) : M value :=
  run_module self "filter_torrents" []
    {[ "torrent_list" := torrent_list;
       "season_episodes" := season_episodes ]}.

Definition download (self : ChainBase)
    (torrent_path cookie episodes : value) : M value :=
  run_module self "download" []
    {[ "torrent_path" := torrent_path;
       "cookie" := cookie;
       "episodes" := episodes ]}.

Definition download_added (self : ChainBase)
    (context torrent_path : value) : M value :=
  run_module self "download_added" []
    {[ "context" := context;
       "torrent_path" := torrent_path ]}.

Definition list_torrents (self : ChainBase) (status hashs : value) : M value :=
  run_module self "list_torrents" [] {[ "status" := status; "hashs" := hashs ]}.

Definition transfer (self : ChainBase) (path mediainfo : value) : M value :=
  run_module self "transfer" [] {[ "path" := path; "mediainfo" := mediainfo ]}.

Definition transfer_completed (self : ChainBase)
    (hashs transinfo : value) : M value :=
  run_module self "transfer_completed" []
    {[ "hashs" := hashs;
       "transinfo" := transinfo ]}.

Definition remove_torrents (self : ChainBase) (hashs : value) : M value :=
  run_module self "remove_torrents" [] {[ "hashs" := hashs ]}.

Definition media_exists (self : ChainBase) (mediainfo : value) : M value :=
  run_module self "media_exists" [] {[ "mediainfo" := mediainfo ]}.

Definition refresh_mediaserver (self : ChainBase)
    (mediainfo file_path : value) : M value :=
  run_module self "refresh_mediaserver" []
    {[ "mediainfo" := mediainfo;
       "file_path" := file_path ]}.

Definition post_message (self : ChainBase)
    (title text image userid : value) : M value :=
  run_module self "post_message" []
    {[ "title" := title;
       "text" := text;
       "image" := image;
       "userid" := userid ]}.

Definition post_medias_message (self : ChainBase)
    (title items userid : value) : M value :=
  run_module self "post_medias_message" []
    {[ "title" := title;
       "items" := items;
       "userid" := userid ]}.

Definition post_torrents_message (self : ChainBase)
    (title items mediainfo userid : value) : M value :=
  run_module self "post_torrents_message" []
    {[ "title" := title;
       "mediainfo" := mediainfo;
       "items" := items;
       "userid" := userid ]}.

Definition scrape_metadata (self : ChainBase)
    (path mediainfo : value) : M value :=
  run_module self "scrape_metadata" []
    {[ "path" := path;
       "mediainfo" := mediainfo ]}.

Definition register_commands (self : ChainBase) (commands : value) : M value :=
  run_module self "register_commands" [] {[ "commands" := commands ]}.

Definition douban_discover (self : ChainBase)
    (mtype sort tags start count : value) : M value :=
  run_module self "douban_discover" []
    {[ "mtype" := mtype;
       "sort" := sort;
       "tags" := tags;
       "start" := start;
       "count" := count ]}.

Definition tmdb_discover (self : ChainBase)
    (mtype sort_by with_genres with_original_language page : value) : M value :=
  run_module self "tmdb_discover" []
    {[ "mtype" := mtype;
       "sort_by" := sort_by;
       "with_genres" := with_genres;
       "with_original_language" := with_original_language;
       "page" := page ]}.

Definition movie_top250 (self : ChainBase) (page count : value) : M value :=
  run_module self "movie_top250" [] {[ "page" := page; "count" := count ]}.

(** Forwarding as the specification words it: the engine is called with a
    capability name equal to the operation's name and named arguments equal
    to the operation's parameters, here the names [params] bound to the
    actual arguments [actuals]. *)
Definition forward (self : ChainBase) (name : string)
    (params : list string) (actuals : list value) : M value :=
  run_module self name [] (list_to_map (zip params actuals)).

(** ** Vocabulary of the properties *)

(** The three shapes of an aggregate, as the loop tells them apart: empty by
    [is_result_empty], a [list], or anything else. *)
Inductive shape : Type := Absent | Sequence | Scalar.

Definition shape_of (v : value) : shape :=
  if is_result_empty v v then Absent
  else if isinstance_list v then Sequence
  else Scalar.

Section Invocation.
Context (method : string) (args : list value) (kw : kwargs).

(** What evaluating [getattr(module, method)] and calling it with [args]
    and [kw] produces for the module [m]. *)
Definition answer (m : module) : outcome :=
  match attrs m !! method with
  | Some f => f args kw
  | None => Raises (AttributeError (class_name m) method)
  end.

(** The event of [m]'s method being invoked. *)
Definition invocation (m : module) : event :=
  Invoke (class_name m) method args kw.

(** What one iteration that reaches the call adds to the trace: the
    invocation when the module has the method, and the error line when the
    lookup or the call raised. *)
Definition footprint (m : module) : list event :=
  match attrs m !! method with
  | Some f =>
      invocation m ::
      match f args kw with
      | Returns _ => []
      | Raises e => [LogError method (class_name m) e]
      end
  | None =>
      [LogError method (class_name m) (AttributeError (class_name m) method)]
  end.

(** The elements a module adds to an aggregate that is a list. *)
Definition items_of (m : module) : list value :=
  match answer m with
  | Returns (VList ys) => ys
  | _ => []
  end.

(** The aggregate after an iteration that started from the empty
    aggregate [r]. *)
Definition taken (r : value) (m : module) : value :=
  match answer m with
  | Returns v => v
  | Raises _ => r
  end.

(** The first value, in the order of the modules, that a module returns and
    that is not empty. *)
Fixpoint first_contribution (ms : list module) : option value :=
  match ms with
  | [] => None
  | m :: rest =>
      match answer m with
      | Returns v =>
          if is_result_empty v v then first_contribution rest else Some v
      | Raises _ => first_contribution rest
      end
  end.

(** The frame the loop starts from: [result = None], and the debug line
    written. *)
Definition entry : frame := {| result := VNone; trace := [LogDebug method] |}.
End Invocation.

(** A module whose only attribute is [method], which always ends in [o]. *)
Definition const_module (cls method : string) (o : outcome) : module :=
  {| class_name := cls; attrs := {[ method := (λ _ _, o) ]} |}.

(** A chain whose module manager returns [ms] for every method name. *)
Definition chain_of (ms : list module) : ChainBase :=
  {| modulemanager := {| get_modules := λ _, ms |} |}.

(** ** What a run shows

    Readings of a module's answer and of a trace, used to describe a run from
    the outside. *)

Section Observations.
Context (method : string) (args : list value) (kw : kwargs).

(** The value the call returns, when neither the lookup nor the call
    raises. *)
Definition returned (m : module) : option value :=
  match answer method args kw m with
  | Returns v => Some v
  | Raises _ => None
  end.

(** Whether the module returns a value that is not empty. *)
Definition contributes (m : module) : bool :=
  match answer method args kw m with
  | Returns v => negb (is_result_empty v v)
  | Raises _ => false
  end.
End Observations.

(** ** Every way a call can end

    [except Exception] catches the instances of [Exception] and no other
    exception, and the line of its handler formats the exception it caught,
    which runs the exception's own [__str__].  The definitions above follow
    the runs in which every exception raised is an instance of [Exception]
    that [str] turns into its message.  The module below follows every run:
    an exception has a class, is or is not an instance of [Exception], and
    its [__str__] returns a string or raises. *)

Module Full.

Inductive exn : Type :=
  | Exn (cls : string) (is_exception : bool) (str_result : string + exn).

Definition exn_class (e : exn) : string :=
  match e with Exn cls _ _ => cls end.

(** [isinstance(err, Exception)] *)
Definition isinstance_Exception (e : exn) : bool :=
  match e with Exn _ is_exception _ => is_exception end.

(** What [str(err)] does: the string it returns or the exception it
    raises. *)
Definition exn_str (e : exn) : string + exn :=
  match e with Exn _ _ str_result => str_result end.

Inductive outcome : Type :=
  | Returns (v : value)
  | Raises (e : exn).

Abbreviation bound_method := (list value → kwargs → outcome).

Record module : Type := Module_ {
  class_name : string;
  attrs : gmap string bound_method
}.

Record ModuleManager : Type := { get_modules : string → list module }.

Record ChainBase : Type := { modulemanager : ModuleManager }.

(** The trace also has what [traceback.print_exc()] prints, and an error
    line holds the text that formatting the exception gave. *)
Inductive event : Type :=
  | LogDebug (method : string)
  | Invoke (cls method : string) (args : list value) (kw : kwargs)
  | PrintExc (err : exn)
  | LogError (method cls text : string).

Record frame : Type := Frame { result : value; trace : list event }.

Definition M (A : Type) : Type := frame → (exn + A) * frame.

#[global] Instance M_ret : MRet M := λ A a fr, (inr a, fr).

#[global] Instance M_bind : MBind M := λ A B k c fr,
  match c fr with
  | (inl e, fr') => (inl e, fr')
  | (inr a, fr') => k a fr'
  end.

Definition get_result : M value := λ fr, (inr (result fr), fr).

Definition set_result (v : value) : M unit :=
  λ fr, (inr tt, {| result := v; trace := trace fr |}).

Definition emit (ev : event) : M unit :=
  λ fr, (inr tt, {| result := result fr; trace := trace fr ++ [ev] |}).

Definition raise {A : Type} (e : exn) : M A := λ fr, (inl e, fr).

(** [try: body except Exception as err: handler]: an exception that is not
    an instance of [Exception] goes through; an exception raised by the
    handler is not caught either. *)
Definition try_except_Exception {A : Type} (body : M A)
    (handler : exn → M A) : M A :=
  λ fr,
    match body fr with
    | (inl err, fr') =>
        if isinstance_Exception err then handler err fr' else (inl err, fr')
    | (inr a, fr') => (inr a, fr')
    end.

Definition AttributeError (cls name : string) : exn :=
  Exn "AttributeError" true
      (inl ("'" +:+ cls +:+ "' object has no attribute '" +:+ name +:+ "'")).

(** [getattr(module, name)] *)
Definition getattr (m : module) (name : string) : M bound_method :=
  match attrs m !! name with
  | Some f => mret f
  | None => raise (AttributeError (class_name m) name)
  end.

(** Calling the bound method [f] of [m], found under [name], with [args] and
    [kwargs]. *)
Definition call (m : module) (name : string) (f : bound_method)
    (args : list value) (kw : kwargs) : M value :=
  emit (Invoke (class_name m) name args kw);;
  match f args kw with
  | Returns v => mret v
  | Raises e => raise e
  end.

(** [str(err)], as the replacement field of the exception in the handler's
    line evaluates it. *)
Definition str (err : exn) : M string :=
  match exn_str err with
  | inl text => mret text
  | inr e => raise e
  end.

(** [traceback.print_exc()] *)
Definition print_exc (err : exn) : M unit := emit (PrintExc err).

Definition logger_debug (method : string) : M unit := emit (LogDebug method).

Definition logger_error (method cls text : string) : M unit :=
  emit (LogError method cls text).

(** The body of [for module in modules:].  The handler's line evaluates its
    replacement fields from left to right, the exception before
    [traceback.print_exc()], and then calls [logger.error]. *)
Definition loop_body (method : string) (args : list value) (kw : kwargs)
    (m : module) : M signal :=
  try_except_Exception
    (r ← get_result;
     if is_result_empty r r then
       f ← getattr m method;
       v ← call m method f args kw;
       set_result v;;
       mret Next
     else
       match r with
       | VList xs =>
           f ← getattr m method;
           temp ← call m method f args kw;
           match temp with
           | VList ys => set_result (VList (xs ++ ys))
           | _ => mret tt
           end;;
           mret Next
       | _ => mret Break
       end)
    (λ err,
       text ← str err;
       print_exc err;;
       logger_error method (class_name m) text;;
       mret Next).

Fixpoint for_each (modules : list module) (body : module → M signal) : M unit :=
  match modules with
  | [] => mret tt
  | m :: rest =>
      s ← body m;
      match s with
      | Next => for_each rest body
      | Break => mret tt
      end
  end.

Definition run_module (self : ChainBase) (method : string)
    (args : list value) (kw : kwargs) : M value :=
  logger_debug method;;
  set_result VNone;;
  for_each (get_modules (modulemanager self) method) (loop_body method args kw);;
  get_result.

(** A call of [__run_module] from outside: the value returned or the
    exception that came out of the call, and the trace of the run. *)
Definition dispatch (self : ChainBase) (method : string)
    (args : list value) (kw : kwargs) : (exn + value) * list event :=
  let '(r, fr) := run_module self method args kw {| result := VNone; trace := [] |} in
  (r, trace fr).

(** *** Readings of an exception, of a module and of a trace *)

(** The exception that leaves the iteration when [e] is raised by the lookup
    or the call: [e] itself when the handler does not catch it, and what
    [str(e)] raises when it does. *)
Definition escaping (e : exn) : option exn :=
  if isinstance_Exception e then
    match exn_str e with
    | inl _ => None
    | inr e' => Some e'
    end
  else Some e.

(** Whether an exception raised by the lookup or the call is caught and
    logged. *)
Definition handled (e : exn) : bool :=
  match escaping e with
  | Some _ => false
  | None => true
  end.

Section Invocation.
Context (method : string) (args : list value) (kw : kwargs).

(** What evaluating [getattr(module, method)] and calling it with [args]
    and [kw] produces for the module [m]. *)
Definition answer (m : module) : outcome :=
  match attrs m !! method with
  | Some f => f args kw
  | None => Raises (AttributeError (class_name m) method)
  end.

(** The event of [m]'s method being invoked. *)
Definition invocation (m : module) : event :=
  Invoke (class_name m) method args kw.

(** What the handler adds to the trace for the exception [e] raised in the
    iteration of [m]. *)
Definition handling (m : module) (e : exn) : list event :=
  if isinstance_Exception e then
    match exn_str e with
    | inl text => [PrintExc e; LogError method (class_name m) text]
    | inr _ => []
    end
  else [].

(** What one iteration that reaches the call adds to the trace. *)
Definition footprint (m : module) : list event :=
  match attrs m !! method with
  | Some f =>
      invocation m ::
      match f args kw with
      | Returns _ => []
      | Raises e => handling m e
      end
  | None => handling m (AttributeError (class_name m) method)
  end.

(** The exception with which the iteration of [m] leaves the loop, if it
    does. *)
Definition exits (m : module) : option exn :=
  match answer m with
  | Returns _ => None
  | Raises e => escaping e
  end.

(** Whether the lookup or the call raises an exception that is caught and
    logged. *)
Definition absorbed (m : module) : bool :=
  match answer m with
  | Returns _ => false
  | Raises e => handled e
  end.

(** The value the call returns, when neither the lookup nor the call
    raises. *)
Definition returned (m : module) : option value :=
  match answer m with
  | Returns v => Some v
  | Raises _ => None
  end.

(** Whether the module returns a value that is not empty. *)
Definition contributes (m : module) : bool :=
  match answer m with
  | Returns v => negb (is_result_empty v v)
  | Raises _ => false
  end.

(** The elements a module adds to an aggregate that is a list. *)
Definition items_of (m : module) : list value :=
  match answer m with
  | Returns (VList ys) => ys
  | _ => []
  end.

(** [result] after an iteration that reached the call, from [result = r]. *)
Definition next (r : value) (m : module) : value :=
  if is_result_empty r r then
    match answer m with
    | Returns v => v
    | Raises _ => r
    end
  else
    match r with
    | VList xs => VList (xs ++ items_of m)
    | _ => r
    end.

(** Whether [getattr(module, method)] finds the method. *)
Definition has_method (m : module) : bool :=
  match attrs m !! method with
  | Some _ => true
  | None => false
  end.

(** The class and the text that the handler logs for a module whose lookup
    or call raises an exception that is caught and formatted. *)
Definition failure (m : module) : option (string * string) :=
  match answer m with
  | Returns _ => None
  | Raises e =>
      if isinstance_Exception e then
        match exn_str e with
        | inl text => Some (class_name m, text)
        | inr _ => None
        end
      else None
  end.

(** The frame the loop starts from. *)
Definition entry : frame := {| result := VNone; trace := [LogDebug method] |}.
End Invocation.

(** The classes of the modules that were called, in the order of the
    calls. *)
Definition invoked (tr : list event) : list string :=
  omap (λ ev, match ev with Invoke cls _ _ _ => Some cls | _ => None end) tr.

(** The classes and texts of the error lines, in the order they were
    written. *)
Definition logged_errors (tr : list event) : list (string * string) :=
  omap (λ ev, match ev with LogError _ cls text => Some (cls, text) | _ => None end)
    tr.

(** A module whose only attribute is [method], which always ends in [o]. *)
Definition const_module (cls method : string) (o : outcome) : module :=
  {| class_name := cls; attrs := {[ method := (λ _ _, o) ]} |}.

(** A chain whose module manager returns [ms] for every method name. *)
Definition chain_of (ms : list module) : ChainBase :=
  {| modulemanager := {| get_modules := λ _, ms |} |}.

(** An [Exception] with a message. *)
Definition error (cls text : string) : exn := Exn cls true (inl text).

(** [KeyboardInterrupt()]: not an instance of [Exception]. *)
Definition KeyboardInterrupt : exn := Exn "KeyboardInterrupt" false (inl "").

(** An instance of a class derived from [Exception] whose [__str__] raises
    [inner]. *)
Definition unprintable (cls : string) (inner : exn) : exn :=
  Exn cls true (inr inner).

End Full.

(** ** The first runs among all runs

    The modules of the first definitions, read as modules of [Full]: their
    exceptions are instances of [Exception] that [str] turns into their
    message. *)

Definition full_exn (e : exn) : Full.exn :=
  Full.Exn (exn_class e) true (inl (exn_msg e)).

Definition full_outcome (o : outcome) : Full.outcome :=
  match o with
  | Returns v => Full.Returns v
  | Raises e => Full.Raises (full_exn e)
  end.

Definition full_module (m : module) : Full.module :=
  {| Full.class_name := class_name m;
     Full.attrs := (λ f, λ a k, full_outcome (f a k)) <$> attrs m |}.

Definition full_chain (self : ChainBase) : Full.ChainBase :=
  {| Full.modulemanager :=
       {| Full.get_modules := λ name,
            map full_module (get_modules (modulemanager self) name) |} |}.

(** An error line of the first definitions stands for the traceback printed
    and the line logged. *)
Definition full_events (ev : event) : list Full.event :=
  match ev with
  | LogDebug method => [Full.LogDebug method]
  | Invoke cls method args kw => [Full.Invoke cls method args kw]
  | LogError method cls err =>
      [Full.PrintExc (full_exn err); Full.LogError method cls (exn_msg err)]
  end.

Definition full_frame (fr : frame) : Full.frame :=
  {| Full.result := result fr;
     Full.trace := concat (map full_events (trace fr)) |}.

(** ** One iteration of the loop *)

Section Dispatch.
Context (self : ChainBase) (method : string) (args : list value) (kw : kwargs).

Local Abbreviation body := (loop_body method args kw).
Local Abbreviation answer := (answer method args kw).
Local Abbreviation footprint := (footprint method args kw).
Local Abbreviation items_of := (items_of method args kw).
Local Abbreviation taken := (taken method args kw).
Local Abbreviation invocation := (invocation method args kw).
Local Abbreviation first_contribution := (first_contribution method args kw).
Local Abbreviation modules := (get_modules (modulemanager self) method).
Local Abbreviation entry := (entry method).

Lemma app_one_two {A : Type} (l : list A) (x y : A) :
  (l ++ [x]) ++ [y] = l ++ [x; y].
Proof. by rewrite <- app_assoc. Qed.


Lemma shape_of_absent (v : value) :
  shape_of v = Absent ↔ is_result_empty v v = true.
Proof.
  unfold shape_of. destruct (is_result_empty v v); [done|].
  by destruct (isinstance_list v).
Qed.

Lemma shape_of_sequence (v : value) :
  shape_of v = Sequence ↔ ∃ xs, v = VList xs.
Proof.
  unfold shape_of. split.
  - destruct (is_result_empty v v); [done|]. destruct v; try done. by eexists.
  - by intros [xs ->].
Qed.

Lemma shape_of_scalar (v : value) :
  shape_of v = Scalar ↔
  is_result_empty v v = false ∧ isinstance_list v = false.
Proof.
  unfold shape_of. destruct (is_result_empty v v); [by split; [|intros []]|].
  destruct (isinstance_list v); by split; [|intros []].
Qed.

(** The aggregate is empty: the module is called and [result] takes what it
    returns; when the lookup or the call raises, the error is logged and
    [result] is kept. *)
Lemma loop_body_absent (m : module) (fr : frame) :
  is_result_empty (result fr) (result fr) = true →
  body m fr =
    (inr Next, {| result := taken (result fr) m;
                  trace := trace fr ++ footprint m |}).
Proof.
  intros Hempty. destruct fr as [r tr]. simpl in Hempty.
  unfold loop_body, try_except, get_result, taken,
    footprint, answer, invocation,
    mbind, M_bind, getattr, call, mret, M_ret; simpl.
  rewrite Hempty.
  destruct (attrs m !! method) as [f|]; simpl; [|done].
  destruct (f args kw); simpl; [done|].
  unfold logger_error, emit; simpl. by rewrite app_one_two.
Qed.

(** The aggregate is a list: the module is called and a list it returns is
    appended; any other value, and a raised exception, leave the list as it
    is. *)
Lemma loop_body_list (m : module) (xs : list value) (tr : list event) :
  body m {| result := VList xs; trace := tr |} =
    (inr Next, {| result := VList (xs ++ items_of m);
                  trace := tr ++ footprint m |}).
Proof.
  unfold loop_body, try_except, get_result, items_of,
    footprint, answer, invocation,
    mbind, M_bind, getattr, call, mret, M_ret; simpl.
  destruct (attrs m !! method) as [f|]; simpl; [|by rewrite app_nil_r].
  destruct (f args kw) as [v|e]; simpl.
  - destruct v; simpl; by rewrite ?app_nil_r.
  - unfold logger_error, emit; simpl. by rewrite app_one_two, app_nil_r.
Qed.

(** The aggregate is neither empty nor a list: [break], and nothing else. *)
Lemma loop_body_scalar (m : module) (fr : frame) :
  shape_of (result fr) = Scalar →
  body m fr = (inr Break, fr).
Proof.
  unfold shape_of. destruct fr as [r tr]; simpl.
  unfold loop_body, try_except, get_result, mbind, M_bind; simpl.
  destruct (is_result_empty r r); [done|].
  destruct r; simpl; done.
Qed.

(** ** The whole loop *)

Lemma for_each_scalar (ms : list module) (fr : frame) :
  shape_of (result fr) = Scalar →
  for_each ms body fr = (inr tt, fr).
Proof.
  intros Hs. destruct ms as [|m ms]; [done|].
  simpl. unfold mbind, M_bind. by rewrite loop_body_scalar.
Qed.

Lemma for_each_list (ms : list module) (xs : list value) (tr : list event) :
  for_each ms body {| result := VList xs; trace := tr |} =
    (inr tt, {| result := VList (xs ++ concat (map items_of ms));
                trace := tr ++ concat (map footprint ms) |}).
Proof.
  revert xs tr. induction ms as [|m ms IH]; intros xs tr; simpl.
  - by rewrite !app_nil_r.
  - unfold mbind, M_bind at 1. rewrite loop_body_list, IH.
    by rewrite <- !app_assoc.
Qed.

Lemma for_each_cons_absent (m : module) (ms : list module) (fr : frame) :
  is_result_empty (result fr) (result fr) = true →
  for_each (m :: ms) body fr =
    for_each ms body {| result := taken (result fr) m;
                        trace := trace fr ++ footprint m |}.
Proof.
  intros Hempty. simpl. unfold mbind, M_bind at 1.
  by rewrite loop_body_absent.
Qed.

(** The loop never raises: it always ends, with some frame, and it only adds
    to the trace. *)
Lemma for_each_returns (ms : list module) (fr : frame) :
  ∃ fr', for_each ms body fr = (inr tt, fr')
         ∧ ∃ more, trace fr' = trace fr ++ more.
Proof.
  revert fr. induction ms as [|m ms IH]; intros fr.
  { exists fr. split; [done|]. exists []. by rewrite app_nil_r. }
  destruct (shape_of (result fr)) eqn:Hs.
  - apply shape_of_absent in Hs.
    rewrite for_each_cons_absent by done.
    destruct (IH {| result := taken (result fr) m;
                    trace := trace fr ++ footprint m |})
      as (fr' & Hfr' & more & Hmore).
    exists fr'. split; [done|]. exists (footprint m ++ more).
    rewrite Hmore. cbn [trace]. by rewrite <- app_assoc.
  - apply shape_of_sequence in Hs as [xs Hxs]. destruct fr as [r tr].
    simpl in Hxs; subst r. rewrite for_each_list.
    eexists. split; [done|]. by eexists.
  - rewrite for_each_scalar by done.
    exists fr. split; [done|]. exists []. by rewrite app_nil_r.
Qed.

Lemma footprint_returns {m : module} {v : value} :
  answer m = Returns v → footprint m = [invocation m].
Proof.
  unfold answer, footprint.
  destruct (attrs m !! method); [|done]. by intros ->.
Qed.


Lemma taken_returns {r : value} {m : module} {v : value} :
  answer m = Returns v → taken r m = v.
Proof. unfold taken. by intros ->. Qed.

Lemma items_of_list {m : module} {ys : list value} :
  answer m = Returns (VList ys) → items_of m = ys.
Proof. unfold items_of. by intros ->. Qed.

Lemma items_of_other {m : module} {v : value} :
  answer m = Returns v → isinstance_list v = false → items_of m = [].
Proof. unfold items_of. intros ->. by destruct v. Qed.

(** ** [__run_module] as seen by its caller *)

Lemma dispatch_for_each (fr' : frame) :
  for_each modules body entry = (inr tt, fr') →
  dispatch self method args kw = (inr (result fr'), trace fr').
Proof.
  intros Hloop. unfold dispatch, run_module, logger_debug, emit, set_result,
    get_result, mbind, M_bind; simpl.
  change (Frame VNone [LogDebug method]) with entry. by rewrite Hloop.
Qed.

(** A first module that returns a list to an empty aggregate: every later
    module is called, and the lists they return are appended in order. *)
Lemma for_each_first_list (m : module) (ms : list module) (fr : frame)
    (xs : list value) :
  is_result_empty (result fr) (result fr) = true →
  answer m = Returns (VList xs) →
  for_each (m :: ms) body fr =
    (inr tt, {| result := VList (xs ++ concat (map items_of ms));
                trace := trace fr ++ invocation m :: concat (map footprint ms) |}).
Proof.
  intros Hempty Hm. rewrite for_each_cons_absent by done.
  rewrite (taken_returns Hm), (footprint_returns Hm).
  rewrite for_each_list. by rewrite <- app_assoc.
Qed.

Lemma default_last_cons (r v : value) (vs : list value) :
  default r (last (v :: vs)) = default v (last vs).
Proof.
  revert r v. induction vs as [|a vs IH]; intros r v; [done|].
  change (last (v :: a :: vs)) with (last (a :: vs)).
  by rewrite !(IH _ a).
Qed.

(** While every module returns an empty value, [result] is overwritten by
    each of them in turn. *)
Lemma for_each_all_absent (ms : list module) (vs : list value) (fr : frame) :
  is_result_empty (result fr) (result fr) = true →
  Forall2 (λ m v, answer m = Returns v ∧ is_result_empty v v = true) ms vs →
  for_each ms body fr =
    (inr tt, {| result := default (result fr) (last vs);
                trace := trace fr ++ map invocation ms |}).
Proof.
  intros Hempty Hall. revert fr Hempty.
  induction Hall as [|m v ms vs [Hm Hv] _ IH]; intros fr Hempty.
  - destruct fr; simpl. by rewrite app_nil_r.
  - rewrite for_each_cons_absent by done.
    rewrite (taken_returns Hm), (footprint_returns Hm).
    rewrite IH by done. cbn [result trace].
    by rewrite default_last_cons, <- app_assoc.
Qed.


(** C1. First answer wins: with the modules [P1; P2; P3], where [P1]
    returns [None], [P2] returns ["X"] and [P3] would return ["Y"], the
    caller gets ["X"] and the trace holds the calls of [P1] and [P2] only.
    In general, from a frame whose [result] is neither empty nor a list the
    loop ends at once: no module is called and the frame stays as it is. *)
Theorem first_wins_short_circuit (P1 P2 P3 : module) :
  modules = [P1; P2; P3] →
  answer P1 = Returns VNone →
  answer P2 = Returns (VStr "X") →
  answer P3 = Returns (VStr "Y") →
  dispatch self method args kw =
    (inr (VStr "X"), [LogDebug method; invocation P1; invocation P2])
  ∧ ∀ (ms : list module) (fr : frame),
      is_result_empty (result fr) (result fr) = false →
      isinstance_list (result fr) = false →
      for_each ms body fr = (inr tt, fr).
Proof.
  intros Hms H1 H2 H3. split.
  - apply (dispatch_for_each
      {| result := VStr "X";
         trace := [LogDebug method; invocation P1; invocation P2] |}).
    rewrite Hms.
    rewrite for_each_cons_absent by done.
    rewrite for_each_cons_absent
      by (simpl; by rewrite (taken_returns H1)).
    cbn [result trace]. rewrite (taken_returns H2).
    rewrite (footprint_returns H1), (footprint_returns H2).
    by rewrite for_each_scalar.
  - intros ms fr He Hl. apply for_each_scalar.
    by apply shape_of_scalar.
Qed.


(** C4. A value that is not a list, met by a list: with the modules
    [P1; P2; P3] returning [[1, 2]], ["scalar"] and [[3]], the caller gets
    [[1, 2, 3]] and all three were called.  In general, an iteration that
    starts from a list and gets a value that is not a list keeps the list as
    it is and goes on to the next module. *)
Theorem mixed_shape_drop (P1 P2 P3 : module) :
  modules = [P1; P2; P3] →
  answer P1 = Returns (VList [VInt 1; VInt 2]) →
  answer P2 = Returns (VStr "scalar") →
  answer P3 = Returns (VList [VInt 3]) →
  dispatch self method args kw =
    (inr (VList [VInt 1; VInt 2; VInt 3]),
     [LogDebug method; invocation P1; invocation P2; invocation P3])
  ∧ ∀ (m : module) (xs : list value) (tr : list event) (v : value),
      answer m = Returns v →
      isinstance_list v = false →
      body m {| result := VList xs; trace := tr |} =
        (inr Next, {| result := VList xs; trace := tr ++ [invocation m] |}).
Proof.
  intros Hms H1 H2 H3. split.
  - apply (dispatch_for_each
      {| result := VList [VInt 1; VInt 2; VInt 3];
         trace := [LogDebug method; invocation P1; invocation P2;
                   invocation P3] |}).
    rewrite Hms, (for_each_first_list _ _ entry _ eq_refl H1). simpl.
    rewrite (items_of_other H2 eq_refl), (items_of_list H3).
    by rewrite (footprint_returns H2), (footprint_returns H3).
  - intros m xs tr v Hv Hl. rewrite loop_body_list.
    by rewrite (items_of_other Hv Hl), app_nil_r,
      (footprint_returns Hv).
Qed.




Lemma dispatch_returns :
  ∃ v tr, dispatch self method args kw = (inr v, tr).
Proof.
  destruct (for_each_returns modules entry) as (fr' & Hfr' & _).
  exists (result fr'), (trace fr'). by apply dispatch_for_each.
Qed.

(** C10. The last empty value is the one returned: an iteration that starts
    from an empty aggregate and gets a value puts that value in [result],
    whatever was there.  So when every module returns an empty value, the
    caller gets the value of the last module; modules that all return
    [(None, None)] give [(None, None)], which is not [None]. *)
Theorem last_absent_value_wins (front : list module) (final : module)
    (v : value) :
  modules = front ++ [final] →
  Forall (λ m, ∃ w, answer m = Returns w ∧ is_result_empty w w = true) front →
  answer final = Returns v →
  is_result_empty v v = true →
  dispatch self method args kw = (inr v, LogDebug method :: map invocation modules)
  ∧ (∀ (m : module) (w : value) (fr : frame),
      is_result_empty (result fr) (result fr) = true →
      answer m = Returns w →
      body m fr =
        (inr Next, {| result := w; trace := trace fr ++ [invocation m] |}))
  ∧ (v = VTuple [VNone; VNone] →
      fst (dispatch self method args kw) = inr (VTuple [VNone; VNone])
      ∧ fst (dispatch self method args kw) ≠ inr VNone).
Proof.
  intros Hms Hfront Hfinal Hv.
  assert (Hd : dispatch self method args kw =
    (inr v, LogDebug method :: map invocation modules)).
  { apply Forall_exists_Forall2_l in Hfront as [ws Hws].
    apply (dispatch_for_each
      {| result := v; trace := LogDebug method :: map invocation modules |}).
    rewrite Hms.
    rewrite (for_each_all_absent _ (ws ++ [v]) entry eq_refl).
    - by rewrite last_snoc.
    - apply Forall2_app; [done|]. by repeat constructor. }
  split; [done|]. split.
  - intros m w fr Hempty Hm. rewrite loop_body_absent by done.
    by rewrite (taken_returns Hm), (footprint_returns Hm).
  - intros ->. by rewrite Hd.
Qed.

(** ** Beyond single cases: the run as a whole *)

Local Abbreviation returned := (returned method args kw).
Local Abbreviation contributes := (contributes method args kw).

Lemma dispatch_inv (v : value) (tr : list event) :
  dispatch self method args kw = (inr v, tr) →
  for_each modules body entry = (inr tt, {| result := v; trace := tr |}).
Proof.
  intros Hd. destruct (for_each_returns modules entry) as ([r tr'] & Hloop & _).
  rewrite (dispatch_for_each _ Hloop) in Hd. simpl in Hd.
  by injection Hd as -> ->.
Qed.

Lemma taken_returned (r : value) (m : module) :
  taken r m = default r (returned m).
Proof. unfold taken, returned. by destruct (answer m). Qed.

Lemma no_contribution_taken (r : value) (m : module) :
  is_result_empty r r = true →
  contributes m = false →
  is_result_empty (taken r m) (taken r m) = true.
Proof.
  unfold contributes, taken. destruct (answer m) as [v|e]; [|done].
  intros _. by destruct (is_result_empty v v).
Qed.

(** The loop over [ms1 ++ ms2] is the loop over [ms1] followed by the loop
    over [ms2]: a [break] in the first part leaves a [result] on which the
    second part breaks at once. *)
Lemma for_each_app (ms1 ms2 : list module) (fr : frame) :
  for_each (ms1 ++ ms2) body fr = (for_each ms1 body;; for_each ms2 body) fr.
Proof.
  revert fr. induction ms1 as [|m ms1 IH]; intros fr; [done|].
  unfold mbind, M_bind in *.
  destruct (shape_of (result fr)) eqn:Hs.
  - apply shape_of_absent in Hs.
    change ((m :: ms1) ++ ms2) with (m :: (ms1 ++ ms2)).
    rewrite !for_each_cons_absent by done. apply IH.
  - apply shape_of_sequence in Hs as [xs Hxs]. destruct fr as [r tr].
    simpl in Hxs; subst r. rewrite !for_each_list.
    by rewrite !List.map_app, !concat_app, !app_assoc.
  - by rewrite !for_each_scalar.
Qed.
(** Modules that return nothing but empty values, or raise, leave an empty
    [result]: the value of the last of them that returned, if any. *)
Lemma for_each_no_contribution (ms : list module) (fr : frame) :
  is_result_empty (result fr) (result fr) = true →
  Forall (λ m, contributes m = false) ms →
  for_each ms body fr =
    (inr tt, {| result := default (result fr) (last (omap returned ms));
                trace := trace fr ++ concat (map footprint ms) |})
  ∧ is_result_empty (default (result fr) (last (omap returned ms)))
      (default (result fr) (last (omap returned ms))) = true.
Proof.
  intros Hempty Hall. revert fr Hempty.
  induction Hall as [|m ms Hm _ IH]; intros fr Hempty.
  { destruct fr; simpl in *. by rewrite app_nil_r. }
  rewrite for_each_cons_absent by done.
  destruct (IH {| result := taken (result fr) m;
                  trace := trace fr ++ footprint m |}
              (no_contribution_taken _ _ Hempty Hm)) as [Hloop Hlast].
  cbn [result trace] in Hloop, Hlast.
  assert (default (taken (result fr) m) (last (omap returned ms)) =
          default (result fr) (last (omap returned (m :: ms)))) as Heq.
  { rewrite taken_returned. simpl.
    destruct (returned m) as [v|]; [|done]. simpl.
    by rewrite default_last_cons. }
  rewrite Hloop, <- Heq. split; [|done].
  simpl. by rewrite <- app_assoc.
Qed.

Lemma first_contribution_None (ms : list module) :
  first_contribution ms = None ↔ Forall (λ m, contributes m = false) ms.
Proof.
  induction ms as [|m ms IH]; [by split; [constructor|]|].
  rewrite Forall_cons, <- IH. simpl. unfold contributes.
  destruct (answer m) as [v|e]; [|by split; [|intros []]].
  destruct (is_result_empty v v); simpl; [by split; [|intros []]|].
  by split; [|intros []].
Qed.

Lemma first_contribution_Some (ms : list module) (w : value) :
  first_contribution ms = Some w →
  ∃ front m rest,
    ms = front ++ m :: rest
    ∧ Forall (λ m', contributes m' = false) front
    ∧ answer m = Returns w
    ∧ is_result_empty w w = false.
Proof.
  induction ms as [|m ms IH]; [done|]. simpl.
  destruct (answer m) as [v|e] eqn:Hm.
  - destruct (is_result_empty v v) eqn:Hv.
    + intros (front & m' & rest & -> & Hfront & Hm' & Hw)%IH.
      exists (m :: front), m', rest. split; [done|]. split; [|done].
      constructor; [|done]. unfold contributes. by rewrite Hm, Hv.
    + intros [= <-]. exists [], m, ms. split; [done|]. split; [|done].
      constructor.
  - intros (front & m' & rest & -> & Hfront & Hm' & Hw)%IH.
    exists (m :: front), m', rest. split; [done|]. split; [|done].
    constructor; [|done]. unfold contributes. by rewrite Hm.
Qed.

(** Up to the first module that returns a value that is not empty, every
    module is run; the loop goes on from that value. *)
Lemma for_each_first_contributor (front : list module) (m : module)
    (rest : list module) (w : value) (fr : frame) :
  is_result_empty (result fr) (result fr) = true →
  Forall (λ m', contributes m' = false) front →
  answer m = Returns w →
  for_each (front ++ m :: rest) body fr =
    for_each rest body
      {| result := w;
         trace := trace fr ++ concat (map footprint front) ++ [invocation m] |}.
Proof.
  intros Hempty Hfront Hm. rewrite for_each_app. unfold mbind, M_bind.
  destruct (for_each_no_contribution front fr Hempty Hfront) as [-> Hlast].
  rewrite for_each_cons_absent by done. cbn [result trace].
  by rewrite (taken_returns Hm), (footprint_returns Hm), <- app_assoc.
Qed.

(** X5. Where a value that is not empty comes from: some module returned a
    value that is not empty, and the modules before the first such module
    returned empty values or raised.  What the caller gets is that module's
    value itself when the value is not a list, and that module's list
    followed by the lists of the later modules when it is. *)
Theorem contribution_provenance (v : value) (tr : list event) :
  dispatch self method args kw = (inr v, tr) →
  is_result_empty v v = false →
  ∃ front m rest w,
    modules = front ++ m :: rest
    ∧ Forall (λ m', contributes m' = false) front
    ∧ answer m = Returns w
    ∧ is_result_empty w w = false
    ∧ (isinstance_list w = false → v = w)
    ∧ (∀ ys, w = VList ys → v = VList (ys ++ concat (map items_of rest))).
Proof.
  intros Hd Hv. destruct (first_contribution modules) as [w|] eqn:Hfirst.
  - apply first_contribution_Some in Hfirst
      as (front & m & rest & Hms & Hfront & Hm & Hw).
    exists front, m, rest, w. do 4 (split; [done|]).
    apply dispatch_inv in Hd.
    rewrite Hms, (for_each_first_contributor _ _ _ w) in Hd by done.
    split.
    + intros Hl. rewrite for_each_scalar in Hd by (by apply shape_of_scalar).
      by injection Hd as <- _.
    + intros ys ->. rewrite for_each_list in Hd. by injection Hd as <- _.
  - apply first_contribution_None in Hfirst.
    destruct (for_each_no_contribution modules entry eq_refl Hfirst)
      as [Hloop Hempty].
    apply dispatch_inv in Hd. rewrite Hloop in Hd.
    injection Hd as <- _.
    change (result entry) with VNone in Hempty. congruence.
Qed.
End Dispatch.

(** ** The public methods forward *)

(** C8. Every public method of [ChainBase] is [__run_module] called with the
    method's own name and with keyword arguments that bind each of the
    method's parameters, by its own name, to the argument received, and
    nothing else: the computation it returns is the one the specification
    calls forwarding. *)
Theorem facade_forwarding (self : ChainBase) :
  (∀ title subtitle,
     prepare_recognize self title subtitle =
     forward self "prepare_recognize" ["title"; "subtitle"] [title; subtitle]) ∧
  (∀ meta mtype tmdbid,
     recognize_media self meta mtype tmdbid =
     forward self "recognize_media"
       ["meta"; "mtype"; "tmdbid"]
       [meta; mtype; tmdbid]) ∧
  (∀ mediainfo,
     obtain_image self mediainfo =
     forward self "obtain_image" ["mediainfo"] [mediainfo]) ∧
  (∀ doubanid,
     douban_info self doubanid =
     forward self "douban_info" ["doubanid"] [doubanid]) ∧
  (∀ tvdbid,
     tvdb_info self tvdbid =
     forward self "tvdb_info" ["tvdbid"] [tvdbid]) ∧
  (∀ tmdbid mtype,
     tmdb_info self tmdbid mtype =
     forward self "tmdb_info" ["tmdbid"; "mtype"] [tmdbid; mtype]) ∧
  (∀ body form args,
     message_parser self body form args =
     forward self "message_parser"
       ["body"; "form"; "args"]
       [body; form; args]) ∧
  (∀ body form args,
     webhook_parser self body form args =
     forward self "webhook_parser"
       ["body"; "form"; "args"]
       [body; form; args]) ∧
  (∀ meta,
     search_medias self meta =
     forward self "search_medias" ["meta"] [meta]) ∧
  (∀ mediainfo sites keyword,
     search_torrents self mediainfo sites keyword =
     forward self "search_torrents"
       ["mediainfo"; "sites"; "keyword"]
       [mediainfo; sites; keyword]) ∧
  (∀ sites,
     refresh_torrents self sites =
     forward self "refresh_torrents" ["sites"] [sites]) ∧
  (∀ torrent_list season_episodes,
     filter_torrents self torrent_list season_episodes =
     forward self "filter_torrents"
       ["torrent_list"; "season_episodes"]
       [torrent_list; season_episodes]) ∧
  (∀ torrent_path cookie episodes,
     download self torrent_path cookie episodes =
     forward self "download"
       ["torrent_path"; "cookie"; "episodes"]
       [torrent_path; cookie; episodes]) ∧
  (∀ context torrent_path,
     download_added self context torrent_path =
     forward self "download_added"
       ["context"; "torrent_path"]
       [context; torrent_path]) ∧
  (∀ status hashs,
     list_torrents self status hashs =
     forward self "list_torrents" ["status"; "hashs"] [status; hashs]) ∧
  (∀ path mediainfo,
     transfer self path mediainfo =
     forward self "transfer" ["path"; "mediainfo"] [path; mediainfo]) ∧
  (∀ hashs transinfo,
     transfer_completed self hashs transinfo =
     forward self "transfer_completed"
       ["hashs"; "transinfo"]
       [hashs; transinfo]) ∧
  (∀ hashs,
     remove_torrents self hashs =
     forward self "remove_torrents" ["hashs"] [hashs]) ∧
  (∀ mediainfo,
     media_exists self mediainfo =
     forward self "media_exists" ["mediainfo"] [mediainfo]) ∧
  (∀ mediainfo file_path,
     refresh_mediaserver self mediainfo file_path =
     forward self "refresh_mediaserver"
       ["mediainfo"; "file_path"]
       [mediainfo; file_path]) ∧
  (∀ title text image userid,
     post_message self title text image userid =
     forward self "post_message"
       ["title"; "text"; "image"; "userid"]
       [title; text; image; userid]) ∧
  (∀ title items userid,
     post_medias_message self title items userid =
     forward self "post_medias_message"
       ["title"; "items"; "userid"]
       [title; items; userid]) ∧
  (∀ title items mediainfo userid,
     post_torrents_message self title items mediainfo userid =
     forward self "post_torrents_message"
       ["title"; "items"; "mediainfo"; "userid"]
       [title; items; mediainfo; userid]) ∧
  (∀ path mediainfo,
     scrape_metadata self path mediainfo =
     forward self "scrape_metadata" ["path"; "mediainfo"] [path; mediainfo]) ∧
  (∀ commands,
     register_commands self commands =
     forward self "register_commands" ["commands"] [commands]) ∧
  (∀ mtype sort tags start count,
     douban_discover self mtype sort tags start count =
     forward self "douban_discover"
       ["mtype"; "sort"; "tags"; "start"; "count"]
       [mtype; sort; tags; start; count]) ∧
  (∀ mtype sort_by with_genres with_original_language page,
     tmdb_discover self mtype sort_by with_genres with_original_language page =
     forward self "tmdb_discover"
       ["mtype"; "sort_by"; "with_genres"; "with_original_language"; "page"]
       [mtype; sort_by; with_genres; with_original_language; page]) ∧
  (∀ page count,
     movie_top250 self page count =
     forward self "movie_top250" ["page"; "count"] [page; count]).
Proof. repeat apply conj; intros; reflexivity. Qed.

(** ** The theorems at concrete modules *)

Lemma first_wins_short_circuit_witness :
  dispatch
    (chain_of [const_module "P1" "recognize_media" (Returns VNone);
               const_module "P2" "recognize_media" (Returns (VStr "X"));
               const_module "P3" "recognize_media" (Returns (VStr "Y"))])
    "recognize_media" [] ∅ =
    (inr (VStr "X"),
     [LogDebug "recognize_media";
      Invoke "P1" "recognize_media" [] ∅;
      Invoke "P2" "recognize_media" [] ∅])
  ∧ for_each [const_module "P3" "recognize_media" (Returns (VStr "Y"))]
      (loop_body "recognize_media" [] ∅)
      {| result := VStr "X"; trace := [] |} =
    (inr tt, {| result := VStr "X"; trace := [] |}).
Proof.
  destruct (first_wins_short_circuit
    (chain_of [const_module "P1" "recognize_media" (Returns VNone);
               const_module "P2" "recognize_media" (Returns (VStr "X"));
               const_module "P3" "recognize_media" (Returns (VStr "Y"))])
    "recognize_media" [] ∅ _ _ _ eq_refl eq_refl eq_refl eq_refl)
    as [Hcall Hstop].
  split; [exact Hcall|]. apply Hstop; reflexivity.
Defined.


Lemma mixed_shape_drop_witness :
  dispatch
    (chain_of
       [const_module "P1" "search_medias" (Returns (VList [VInt 1; VInt 2]));
        const_module "P2" "search_medias" (Returns (VStr "scalar"));
        const_module "P3" "search_medias" (Returns (VList [VInt 3]))])
    "search_medias" [] ∅ =
    (inr (VList [VInt 1; VInt 2; VInt 3]),
     [LogDebug "search_medias";
      Invoke "P1" "search_medias" [] ∅;
      Invoke "P2" "search_medias" [] ∅;
      Invoke "P3" "search_medias" [] ∅])
  ∧ loop_body "search_medias" [] ∅
      (const_module "P2" "search_medias" (Returns (VStr "scalar")))
      {| result := VList [VInt 1; VInt 2]; trace := [] |} =
    (inr Next, {| result := VList [VInt 1; VInt 2];
                  trace := [Invoke "P2" "search_medias" [] ∅] |}).
Proof.
  destruct (mixed_shape_drop
    (chain_of
       [const_module "P1" "search_medias" (Returns (VList [VInt 1; VInt 2]));
        const_module "P2" "search_medias" (Returns (VStr "scalar"));
        const_module "P3" "search_medias" (Returns (VList [VInt 3]))])
    "search_medias" [] ∅ _ _ _ eq_refl eq_refl eq_refl eq_refl)
    as [Hcall Hdrop].
  split; [exact Hcall|].
  exact (Hdrop (const_module "P2" "search_medias" (Returns (VStr "scalar")))
    [VInt 1; VInt 2] [] (VStr "scalar") eq_refl eq_refl).
Defined.



Lemma last_absent_value_wins_witness :
  dispatch
    (chain_of
       [const_module "P1" "prepare_recognize" (Returns (VTuple [VNone; VNone]));
        const_module "P2" "prepare_recognize" (Returns (VTuple [VNone; VNone]))])
    "prepare_recognize" [] ∅ =
    (inr (VTuple [VNone; VNone]),
     [LogDebug "prepare_recognize";
      Invoke "P1" "prepare_recognize" [] ∅;
      Invoke "P2" "prepare_recognize" [] ∅]).
Proof.
  refine (proj1 (last_absent_value_wins
    (chain_of
       [const_module "P1" "prepare_recognize" (Returns (VTuple [VNone; VNone]));
        const_module "P2" "prepare_recognize" (Returns (VTuple [VNone; VNone]))])
    "prepare_recognize" [] ∅
    [const_module "P1" "prepare_recognize" (Returns (VTuple [VNone; VNone]))]
    (const_module "P2" "prepare_recognize" (Returns (VTuple [VNone; VNone])))
    (VTuple [VNone; VNone]) eq_refl _ eq_refl eq_refl)).
  constructor; [|constructor].
  exists (VTuple [VNone; VNone]). split; reflexivity.
Defined.


(** ** The whole-run theorems at concrete modules *)


Lemma contribution_provenance_witness :
  ∃ front m rest w,
    [const_module "P1" "search_medias" (Returns VNone);
     const_module "P2" "search_medias" (Returns (VList [VInt 1]));
     const_module "P3" "search_medias" (Returns (VList [VInt 2]))] =
      front ++ m :: rest
    ∧ answer "search_medias" [] ∅ m = Returns w
    ∧ (∀ ys, w = VList ys →
         VList [VInt 1; VInt 2] =
         VList (ys ++ concat (map (items_of "search_medias" [] ∅) rest))).
Proof.
  destruct (contribution_provenance
    (chain_of [const_module "P1" "search_medias" (Returns VNone);
               const_module "P2" "search_medias" (Returns (VList [VInt 1]));
               const_module "P3" "search_medias" (Returns (VList [VInt 2]))])
    "search_medias" [] ∅
    (VList [VInt 1; VInt 2])
    [LogDebug "search_medias";
     Invoke "P1" "search_medias" [] ∅;
     Invoke "P2" "search_medias" [] ∅;
     Invoke "P3" "search_medias" [] ∅]
    eq_refl eq_refl) as (front & m & rest & w & Hms & _ & Hm & _ & _ & Hlist).
  exists front, m, rest, w. split; [exact Hms|]. split; [exact Hm|exact Hlist].
Defined.

(** ** Runs in which an exception can leave the call *)

Module FullRun.
Import Full.

Section Run.
Context (self : ChainBase) (method : string) (args : list value) (kw : kwargs).

Local Abbreviation body := (loop_body method args kw).
Local Abbreviation answer := (answer method args kw).
Local Abbreviation footprint := (footprint method args kw).
Local Abbreviation handling := (handling method).
Local Abbreviation exits := (exits method args kw).
Local Abbreviation absorbed := (absorbed method args kw).
Local Abbreviation returned := (returned method args kw).
Local Abbreviation contributes := (contributes method args kw).
Local Abbreviation items_of := (items_of method args kw).
Local Abbreviation next := (next method args kw).
Local Abbreviation has_method := (has_method method).
Local Abbreviation failure := (failure method args kw).
Local Abbreviation invocation := (invocation method args kw).
Local Abbreviation modules := (get_modules (modulemanager self) method).
Local Abbreviation entry := (entry method).

(** The frame after an iteration that reached the call. *)
Local Abbreviation stepped fr m :=
  {| result := next (result fr) m; trace := trace fr ++ footprint m |}.

Lemma not_scalar_cases (r : value) :
  shape_of r ≠ Scalar →
  is_result_empty r r = true ∨ ∃ xs, r = VList xs.
Proof.
  intros Hs. destruct (shape_of r) eqn:Hshape; [| |done].
  - left. by apply shape_of_absent.
  - right. by apply shape_of_sequence.
Qed.

Lemma scalar_or_not (r : value) :
  shape_of r = Scalar ∨ shape_of r ≠ Scalar.
Proof. destruct (shape_of r); [by right|by right|by left]. Qed.

(** An iteration that starts from a [result] that is empty or a list: the
    module is looked up and called; the iteration goes on to the next module
    unless an exception leaves it. *)
Lemma full_loop_body (m : module) (fr : frame) :
  shape_of (result fr) ≠ Scalar →
  body m fr =
    (match exits m with
     | Some e => inl e
     | None => inr Next
     end, stepped fr m).
Proof.
  intros Hs. destruct fr as [r tr]. simpl in Hs.
  unfold loop_body, try_except_Exception, get_result, next, footprint,
    handling, exits, items_of, answer, invocation, escaping,
    mbind, M_bind, getattr, call, str, print_exc, logger_error, emit,
    mret, M_ret, raise; simpl.
  destruct (not_scalar_cases r Hs) as [Hempty|[xs ->]].
  - rewrite Hempty.
    destruct (attrs m !! method) as [f|]; simpl.
    + destruct (f args kw) as [v|[cls [] [text|e']]]; simpl;
        by rewrite <- ?app_assoc.
    + by rewrite <- ?app_assoc.
  - simpl.
    destruct (attrs m !! method) as [f|]; simpl.
    + destruct (f args kw) as [[]|[cls [] [text|e']]];
        unfold set_result; simpl; rewrite <- ?app_assoc, ?app_nil_r; done.
    + by rewrite <- ?app_assoc, ?app_nil_r.
Qed.

(** An iteration that starts from a [result] that is neither empty nor a
    list: [break], and nothing else. *)
Lemma full_loop_body_scalar (m : module) (fr : frame) :
  shape_of (result fr) = Scalar →
  body m fr = (inr Break, fr).
Proof.
  unfold shape_of. destruct fr as [r tr]; simpl.
  unfold loop_body, try_except_Exception, get_result, mbind, M_bind; simpl.
  destruct (is_result_empty r r); [done|].
  destruct r; simpl; done.
Qed.

Lemma full_for_each_scalar (ms : list module) (fr : frame) :
  shape_of (result fr) = Scalar →
  for_each ms body fr = (inr tt, fr).
Proof.
  intros Hs. destruct ms as [|m ms]; [done|].
  simpl. unfold mbind, M_bind. by rewrite full_loop_body_scalar.
Qed.

Lemma full_for_each_cons (m : module) (ms : list module) (fr : frame) :
  shape_of (result fr) ≠ Scalar →
  for_each (m :: ms) body fr =
    match exits m with
    | Some e => (inl e, stepped fr m)
    | None => for_each ms body (stepped fr m)
    end.
Proof.
  intros Hs. simpl. unfold mbind, M_bind at 1.
  rewrite full_loop_body by done. by destruct (exits m).
Qed.

Lemma full_dispatch_for_each (o : exn + unit) (fr' : frame) :
  for_each modules body entry = (o, fr') →
  dispatch self method args kw =
    (match o with
     | inl e => inl e
     | inr _ => inr (result fr')
     end, trace fr').
Proof.
  intros Hloop. unfold dispatch, run_module, logger_debug, emit, set_result,
    get_result, mbind, M_bind; simpl.
  change (Frame VNone [LogDebug method]) with entry. rewrite Hloop.
  by destruct o.
Qed.
Lemma full_exits_returns {m : module} {v : value} :
  answer m = Returns v → exits m = None.
Proof. unfold exits. by intros ->. Qed.

Lemma full_footprint_returns {m : module} {v : value} :
  answer m = Returns v → footprint m = [invocation m].
Proof.
  unfold answer, footprint. destruct (attrs m !! method); [|done].
  by intros ->.
Qed.

Lemma full_next_returns {r : value} {m : module} {v : value} :
  answer m = Returns v → is_result_empty r r = true → next r m = v.
Proof. unfold next. by intros -> ->. Qed.

Lemma full_next_list (xs : list value) (m : module) :
  next (VList xs) m = VList (xs ++ items_of m).
Proof. done. Qed.

Lemma full_items_of_list {m : module} {ys : list value} :
  answer m = Returns (VList ys) → items_of m = ys.
Proof. unfold items_of. by intros ->. Qed.

Lemma full_items_of_other {m : module} {v : value} :
  answer m = Returns v → isinstance_list v = false → items_of m = [].
Proof. unfold items_of. intros ->. by destruct v. Qed.

(** A module whose exception is caught and logged leaves [result] as it
    was, and the loop goes on. *)
Lemma full_absorbed (r : value) (m : module) :
  absorbed m = true →
  shape_of r ≠ Scalar →
  exits m = None ∧ next r m = r.
Proof.
  unfold absorbed, exits, handled, next, items_of. intros Hm Hs.
  destruct (answer m) as [v|e]; [done|].
  split; [by destruct (escaping e)|].
  destruct (not_scalar_cases r Hs) as [->|[xs ->]]; [done|].
  simpl. by rewrite app_nil_r.
Qed.

(** A module that returns an empty value or raises an exception that is
    caught keeps an empty [result] empty. *)
Lemma full_next_no_contribution (r : value) (m : module) :
  is_result_empty r r = true →
  contributes m = false →
  next r m = default r (returned m)
  ∧ is_result_empty (next r m) (next r m) = true.
Proof.
  unfold contributes, next, returned. intros Hr Hm. rewrite Hr.
  destruct (answer m) as [v|e]; simpl; [|done].
  by destruct (is_result_empty v v).
Qed.

(** From a list, while no exception leaves the loop, every module is run and
    the lists returned are appended. *)
Lemma full_for_each_list (ms : list module) (xs : list value)
    (tr : list event) :
  Forall (λ m, exits m = None) ms →
  for_each ms body {| result := VList xs; trace := tr |} =
    (inr tt, {| result := VList (xs ++ concat (map items_of ms));
                trace := tr ++ concat (map footprint ms) |}).
Proof.
  intros Hall. revert xs tr.
  induction Hall as [|m ms Hm _ IH]; intros xs tr.
  { simpl. by rewrite !app_nil_r. }
  rewrite full_for_each_cons by done. rewrite Hm. cbn [result trace].
  rewrite full_next_list, IH. simpl. by rewrite <- !app_assoc.
Qed.

(** While no exception leaves the loop, the loop ends normally. *)
Lemma full_for_each_returns (ms : list module) (fr : frame) :
  Forall (λ m, exits m = None) ms →
  ∃ fr', for_each ms body fr = (inr tt, fr').
Proof.
  intros Hall. revert fr. induction Hall as [|m ms Hm _ IH]; intros fr.
  { by eexists. }
  destruct (scalar_or_not (result fr)) as [Hs|Hs].
  - rewrite full_for_each_scalar by done. by eexists.
  - rewrite full_for_each_cons by done. rewrite Hm. apply IH.
Qed.

(** Modules that return empty values or raise exceptions that are caught
    are run one after the other and leave an empty [result]: the value of
    the last of them that returned, if any. *)
Lemma full_for_each_passed (front tail : list module) (fr : frame) :
  is_result_empty (result fr) (result fr) = true →
  Forall (λ m, contributes m = false ∧ exits m = None) front →
  for_each (front ++ tail) body fr =
    for_each tail body
      {| result := default (result fr) (last (omap returned front));
         trace := trace fr ++ concat (map footprint front) |}
  ∧ is_result_empty (default (result fr) (last (omap returned front)))
      (default (result fr) (last (omap returned front))) = true.
Proof.
  intros Hempty Hall. revert fr Hempty.
  induction Hall as [|m front [Hm Hexit] _ IH]; intros fr Hempty.
  { destruct fr; simpl in *. by rewrite app_nil_r. }
  change ((m :: front) ++ tail) with (m :: (front ++ tail)).
  rewrite full_for_each_cons by (by rewrite (proj2 (shape_of_absent _) Hempty)).
  rewrite Hexit.
  destruct (full_next_no_contribution _ _ Hempty Hm) as [Hnext Hnext_empty].
  destruct (IH (stepped fr m) Hnext_empty) as [Hloop Hlast].
  cbn [result trace] in Hloop, Hlast.
  assert (default (next (result fr) m) (last (omap returned front)) =
          default (result fr) (last (omap returned (m :: front)))) as Heq.
  { rewrite Hnext. simpl.
    destruct (returned m) as [v|]; [|done]. simpl.
    by rewrite default_last_cons. }
  rewrite Hloop, <- Heq. split; [|done].
  simpl. by rewrite <- app_assoc.
Qed.

(** A [result] that is not empty is not empty at the end of the loop
    either. *)
Lemma full_for_each_nonempty (ms : list module) (fr : frame) :
  is_result_empty (result fr) (result fr) = false →
  is_result_empty (result (snd (for_each ms body fr)))
    (result (snd (for_each ms body fr))) = false.
Proof.
  revert fr. induction ms as [|m ms IH]; intros fr Hr; [done|].
  destruct (shape_of (result fr)) eqn:Hs.
  - apply shape_of_absent in Hs. congruence.
  - apply shape_of_sequence in Hs as [xs Hxs].
    rewrite full_for_each_cons by (rewrite Hxs; done).
    destruct (exits m); [by rewrite Hxs|].
    apply IH. by rewrite Hxs.
  - by rewrite full_for_each_scalar.
Qed.

(** Leaving out the modules whose exception is caught and logged changes
    neither how the loop ends nor what it leaves in [result]. *)
Lemma full_for_each_without_absorbed (ms : list module) (fr1 fr2 : frame) :
  result fr1 = result fr2 →
  fst (for_each ms body fr1) =
    fst (for_each (List.filter (λ m, negb (absorbed m)) ms) body fr2)
  ∧ result (snd (for_each ms body fr1)) =
    result (snd (for_each (List.filter (λ m, negb (absorbed m)) ms) body fr2)).
Proof.
  revert fr1 fr2. induction ms as [|m ms IH]; intros fr1 fr2 Hr; [done|].
  destruct (scalar_or_not (result fr1)) as [Hs|Hs].
  { by rewrite !full_for_each_scalar by (by rewrite <- ?Hr). }
  rewrite full_for_each_cons by done. cbn [List.filter].
  destruct (absorbed m) eqn:Hm; cbn [negb].
  - destruct (full_absorbed (result fr1) m Hm Hs) as [-> Hnext].
    apply IH. simpl. by rewrite Hnext.
  - rewrite full_for_each_cons by (by rewrite <- Hr). rewrite <- Hr.
    destruct (exits m); [done|]. by apply IH.
Qed.
Lemma full_exits_handled (m : module) :
  (∀ e, answer m = Raises e → handled e = true) → exits m = None.
Proof.
  unfold exits, handled. intros Hm. destruct (answer m) as [v|e]; [done|].
  specialize (Hm e eq_refl). by destruct (escaping e).
Qed.

Lemma full_absorbed_passed (m : module) :
  absorbed m = true →
  contributes m = false ∧ exits m = None ∧ returned m = None.
Proof.
  unfold absorbed, contributes, exits, returned, handled.
  destruct (answer m) as [v|e]; [done|]. by destruct (escaping e).
Qed.

Lemma full_handling_handled (m : module) (e : exn) :
  handled e = true →
  ∃ text, exn_str e = inl text
          ∧ handling m e = [PrintExc e; LogError method (class_name m) text].
Proof.
  unfold handled, escaping, handling.
  destruct e as [cls [] [text|e']]; simpl; try done. by eexists.
Qed.

Lemma full_footprint_raises (m : module) (e : exn) :
  answer m = Raises e →
  footprint m = (if has_method m then [invocation m] else []) ++ handling m e.
Proof.
  unfold answer, footprint, has_method.
  destruct (attrs m !! method); [by intros ->|by intros [= <-]].
Qed.

(** An exception that is not an instance of [Exception] comes from the call
    of a method that the module has. *)
Lemma full_uncaught_has_method (m : module) (e : exn) :
  answer m = Raises e →
  escaping e ≠ None →
  has_method m = true.
Proof.
  unfold answer, has_method. destruct (attrs m !! method); [done|].
  by intros [= <-].
Qed.

(** C3, as the code has it.  An exception raised by the lookup or the call
    that is an instance of [Exception], and that [str] formats, is caught by
    the handler and logged with the method, the class of the module and the
    text; [result] is left as it was and the loop goes on with the next
    module.  A returned [None] leaves the same [result] when [result] is
    [None] or a list, and replaces a [result] that is a tuple of [None]s.
    Leaving out the modules that raise such exceptions gives the caller the
    same outcome.  When no module raises any other exception, the caller gets
    a value.  With [P1] raising such an exception and [P2] returning ["X"],
    the caller gets ["X"].  An exception that is not an instance of
    [Exception] is not caught: it ends the loop and reaches the caller. *)
Theorem caught_raise_is_isolated :
  (∀ (m : module) (e : exn) (fr : frame),
      answer m = Raises e →
      handled e = true →
      shape_of (result fr) ≠ Scalar →
      body m fr =
        (inr Next, {| result := result fr; trace := trace fr ++ footprint m |})
      ∧ ∃ text, exn_str e = inl text
                ∧ LogError method (class_name m) text ∈ footprint m)
  ∧ (∀ (m m0 : module) (e : exn) (fr : frame),
      answer m = Raises e →
      handled e = true →
      answer m0 = Returns VNone →
      shape_of (result fr) ≠ Scalar →
      result (snd (body m fr)) = result fr
      ∧ result (snd (body m0 fr)) =
          (if is_result_empty (result fr) (result fr) then VNone
           else result fr))
  ∧ (∀ self' : ChainBase,
      get_modules (modulemanager self') method =
        List.filter (λ m, negb (absorbed m)) modules →
      fst (dispatch self method args kw) = fst (dispatch self' method args kw))
  ∧ (Forall (λ m, ∀ e, answer m = Raises e → handled e = true) modules →
     ∃ v tr, dispatch self method args kw = (inr v, tr))
  ∧ (∀ (P1 P2 : module) (e : exn),
      modules = [P1; P2] →
      answer P1 = Raises e →
      handled e = true →
      answer P2 = Returns (VStr "X") →
      dispatch self method args kw =
        (inr (VStr "X"),
         LogDebug method :: footprint P1 ++ [invocation P2]))
  ∧ (∀ (m : module) (rest : list module) (e : exn) (fr : frame),
      answer m = Raises e →
      isinstance_Exception e = false →
      shape_of (result fr) ≠ Scalar →
      for_each (m :: rest) body fr =
        (inl e, {| result := result fr;
                   trace := trace fr ++ [invocation m] |})).
Proof.
  assert (Habs : ∀ (m : module) (e : exn),
    answer m = Raises e → handled e = true → absorbed m = true).
  { intros m e Hm He. unfold absorbed. by rewrite Hm. }
  split; [|split; [|split; [|split; [|split]]]].
  - intros m e fr Hm He Hs.
    destruct (full_absorbed (result fr) m (Habs m e Hm He) Hs) as [Hexit Hnext].
    rewrite full_loop_body by done. rewrite Hexit, Hnext. split; [done|].
    destruct (full_handling_handled m e He) as (text & Htext & Hhandling).
    exists text. split; [done|].
    rewrite (full_footprint_raises m e Hm), Hhandling.
    apply elem_of_app; right. set_solver.
  - intros m m0 e fr Hm He Hm0 Hs.
    destruct (full_absorbed (result fr) m (Habs m e Hm He) Hs) as [Hexit Hnext].
    rewrite !full_loop_body by done. cbn [snd result]. split; [done|].
    destruct (not_scalar_cases _ Hs) as [Hempty|[xs Hxs]].
    + by rewrite Hempty, (full_next_returns Hm0 Hempty).
    + rewrite Hxs, full_next_list, (full_items_of_other Hm0 eq_refl).
      by rewrite app_nil_r.
  - intros self' Hself'.
    destruct (full_for_each_without_absorbed modules entry entry eq_refl)
      as [Hout Hres].
    destruct (for_each modules body entry) as [o1 fr1] eqn:H1.
    destruct (for_each (List.filter (λ m, negb (absorbed m)) modules) body entry)
      as [o2 fr2] eqn:H2.
    rewrite (full_dispatch_for_each _ _ H1).
    unfold dispatch, run_module, logger_debug, emit, set_result,
      get_result, mbind, M_bind; simpl.
    change (Frame VNone [LogDebug method]) with entry.
    rewrite Hself', H2. simpl in Hout, Hres. subst o2.
    destruct o1; simpl; [done|]. by rewrite Hres.
  - intros Hall.
    destruct (full_for_each_returns modules entry) as [fr' Hloop].
    { eapply Forall_impl; [exact Hall|]. intros m. apply full_exits_handled. }
    exists (result fr'), (trace fr').
    by rewrite (full_dispatch_for_each _ _ Hloop).
  - intros P1 P2 e Hms H1 He H2.
    assert (Hloop : for_each modules body entry =
      (inr tt, {| result := VStr "X";
                  trace := LogDebug method ::
                           footprint P1 ++ [invocation P2] |})).
    { destruct (full_absorbed VNone P1 (Habs P1 e H1 He)) as [Hexit Hnext];
        [done|].
      rewrite Hms, full_for_each_cons by done.
      rewrite Hexit. cbn [result trace entry]. rewrite Hnext.
      rewrite full_for_each_cons by done.
      rewrite (full_exits_returns H2). cbn [result trace].
      rewrite (full_next_returns (r:=VNone) H2 eq_refl).
      by rewrite (full_footprint_returns H2). }
    by rewrite (full_dispatch_for_each _ _ Hloop).
  - intros m rest e fr Hm He Hs.
    rewrite full_for_each_cons by done.
    assert (escaping e = Some e) as Hesc.
    { unfold escaping. by rewrite He. }
    assert (exits m = Some e) as ->.
    { unfold exits. by rewrite Hm. }
    rewrite (full_footprint_raises m e Hm).
    rewrite (full_uncaught_has_method m e Hm) by (by rewrite Hesc).
    unfold handling. rewrite He.
    assert (next (result fr) m = result fr) as ->; [|done].
    unfold next, items_of. rewrite Hm.
    destruct (not_scalar_cases _ Hs) as [->|[xs ->]]; [done|].
    simpl. by rewrite app_nil_r.
Qed.

Lemma full_returns_empty_passed (ms : list module) (vs : list value) :
  Forall2 (λ m v, answer m = Returns v ∧ is_result_empty v v = true) ms vs →
  omap returned ms = vs
  ∧ concat (map footprint ms) = map invocation ms
  ∧ Forall (λ m, contributes m = false ∧ exits m = None) ms.
Proof.
  induction 1 as [|m v ms vs [Hm Hv] _ (IH1 & IH2 & IH3)]; [done|].
  assert (returned m = Some v) as Hr by (unfold returned; by rewrite Hm).
  split; [|split].
  - simpl. rewrite Hr. f_equal. exact IH1.
  - simpl. by rewrite (full_footprint_returns Hm), IH2.
  - constructor; [|done]. unfold contributes, exits. by rewrite Hm, Hv.
Qed.

Lemma full_all_absorbed_passed (ms : list module) :
  Forall (λ m, ∃ e, answer m = Raises e ∧ handled e = true) ms →
  omap returned ms = []
  ∧ Forall (λ m, contributes m = false ∧ exits m = None) ms.
Proof.
  induction 1 as [|m ms (e & Hm & He) _ [IH1 IH2]]; [done|].
  assert (absorbed m = true) as Habs by (unfold absorbed; by rewrite Hm).
  destruct (full_absorbed_passed m Habs) as (Hc & Hx & Hr).
  split; [|by constructor]. simpl. rewrite Hr. exact IH1.
Qed.

(** C6, as the code has it.  With no module for the method the caller gets
    [None] and nothing is called.  When the lookup or the call raises for
    every module, each time an instance of [Exception] that [str] formats,
    every exception is caught and the caller gets [None].  When every module
    returns an empty value the caller gets the value of the last module,
    which is empty for [is_result_empty]: [None] when the modules return
    [None]. *)
Theorem empty_results_by_case :
  (modules = [] →
     dispatch self method args kw = (inr VNone, [LogDebug method]))
  ∧ (Forall (λ m, ∃ e, answer m = Raises e ∧ handled e = true) modules →
     dispatch self method args kw =
       (inr VNone, LogDebug method :: concat (map footprint modules)))
  ∧ (∀ vs : list value,
      Forall2 (λ m v, answer m = Returns v ∧ is_result_empty v v = true)
        modules vs →
      dispatch self method args kw =
        (inr (default VNone (last vs)), LogDebug method :: map invocation modules)
      ∧ is_result_empty (default VNone (last vs)) (default VNone (last vs)) = true)
  ∧ (Forall (λ m, answer m = Returns VNone) modules →
     fst (dispatch self method args kw) = inr VNone).
Proof.
  assert (Hpassed : ∀ vs,
    omap returned modules = vs →
    Forall (λ m, contributes m = false ∧ exits m = None) modules →
    dispatch self method args kw =
      (inr (default VNone (last vs)),
       LogDebug method :: concat (map footprint modules))
    ∧ is_result_empty (default VNone (last vs)) (default VNone (last vs)) = true).
  { intros vs <- Hall.
    destruct (full_for_each_passed modules [] entry eq_refl Hall)
      as [Hloop Hempty].
    rewrite app_nil_r in Hloop. split; [|done].
    by rewrite (full_dispatch_for_each _ _ Hloop). }
  split; [|split; [|split]].
  - intros Hms.
    apply (full_dispatch_for_each (inr tt) entry). by rewrite Hms.
  - intros Hall. destruct (full_all_absorbed_passed _ Hall) as [Hnone Hp].
    by destruct (Hpassed [] Hnone Hp).
  - intros vs Hall.
    destruct (full_returns_empty_passed _ _ Hall) as (Hvs & Hfp & Hp).
    rewrite <- Hfp. by apply Hpassed.
  - intros Hall.
    assert (∀ ms, Forall (λ m, answer m = Returns VNone) ms →
      Forall2 (λ m v, answer m = Returns v ∧ is_result_empty v v = true)
        ms (replicate (length ms) VNone)) as Hnones.
    { induction 1; by constructor. }
    destruct (full_returns_empty_passed _ _ (Hnones _ Hall)) as (Hvs & _ & Hp).
    destruct (Hpassed _ Hvs Hp) as [-> _]. simpl.
    destruct (length modules) as [|n]; [done|].
    by rewrite replicate_S_end, last_snoc.
Qed.

(** X2. An exception whose [__str__] raises: the handler catches it, and the
    line that logs it evaluates [str] of it outside any [try], so what
    [__str__] raises leaves [__run_module]: nothing is logged, [result] is
    not returned and the modules after it are not run. *)
Theorem unprintable_exception_ends_the_run :
  (∀ (m : module) (rest : list module) (e e' : exn) (fr : frame),
      answer m = Raises e →
      isinstance_Exception e = true →
      exn_str e = inr e' →
      shape_of (result fr) ≠ Scalar →
      for_each (m :: rest) body fr =
        (inl e', {| result := result fr;
                    trace := trace fr ++ [invocation m] |}))
  ∧ (∀ (P1 : module) (rest : list module) (e e' : exn),
      modules = P1 :: rest →
      answer P1 = Raises e →
      isinstance_Exception e = true →
      exn_str e = inr e' →
      dispatch self method args kw =
        (inl e', [LogDebug method; invocation P1])).
Proof.
  assert (Hstep : ∀ (m : module) (rest : list module) (e e' : exn) (fr : frame),
    answer m = Raises e →
    isinstance_Exception e = true →
    exn_str e = inr e' →
    shape_of (result fr) ≠ Scalar →
    for_each (m :: rest) body fr =
      (inl e', {| result := result fr;
                  trace := trace fr ++ [invocation m] |})).
  { intros m rest e e' fr Hm He Hstr Hs.
    rewrite full_for_each_cons by done.
    assert (escaping e = Some e') as Hesc.
    { unfold escaping. by rewrite He, Hstr. }
    assert (exits m = Some e') as ->.
    { unfold exits. by rewrite Hm. }
    rewrite (full_footprint_raises m e Hm).
    rewrite (full_uncaught_has_method m e Hm) by (by rewrite Hesc).
    unfold handling. rewrite He, Hstr.
    assert (next (result fr) m = result fr) as ->; [|done].
    unfold next, items_of. rewrite Hm.
    destruct (not_scalar_cases _ Hs) as [->|[xs ->]]; [done|].
    simpl. by rewrite app_nil_r. }
  split; [exact Hstep|].
  intros P1 rest e e' Hms Hm He Hstr.
  apply (full_dispatch_for_each (inl e')
    {| result := VNone; trace := [LogDebug method; invocation P1] |}).
  rewrite Hms. by rewrite (Hstep P1 rest e e' entry Hm He Hstr).
Qed.

Lemma full_invoked_footprint (m : module) :
  invoked (footprint m) = if has_method m then [class_name m] else [].
Proof.
  unfold footprint, has_method, handling.
  destruct (attrs m !! method) as [f|]; [|done].
  by destruct (f args kw) as [v|[cls [] [text|e']]].
Qed.

Lemma full_logged_footprint (m : module) :
  logged_errors (footprint m) =
    match failure m with
    | Some line => [line]
    | None => []
    end.
Proof.
  unfold footprint, failure, answer, handling.
  destruct (attrs m !! method) as [f|]; [|done].
  by destruct (f args kw) as [v|[cls [] [text|e']]].
Qed.

Lemma full_invoked_footprints (ms : list module) :
  invoked (concat (map footprint ms)) =
    map class_name (List.filter has_method ms).
Proof.
  induction ms as [|m ms IH]; [done|]. simpl.
  unfold invoked in *. rewrite omap_app, IH.
  fold (invoked (footprint m)). rewrite full_invoked_footprint.
  by destruct (has_method m).
Qed.

Lemma full_logged_footprints (ms : list module) :
  logged_errors (concat (map footprint ms)) = omap failure ms.
Proof.
  induction ms as [|m ms IH]; [done|]. simpl.
  unfold logged_errors in *. rewrite omap_app, IH.
  fold (logged_errors (footprint m)). rewrite full_logged_footprint.
  by destruct (failure m).
Qed.

(** The loop runs the iterations of the first [k] modules, for some [k]: of
    all of them when it ends normally on a [result] that is empty or a list,
    and up to the module whose exception leaves it when it ends with an
    exception. *)
Lemma full_for_each_ran (ms : list module) (fr : frame) :
  ∃ k,
    k ≤ length ms
    ∧ trace (snd (for_each ms body fr)) =
        trace fr ++ concat (map footprint (take k ms))
    ∧ match fst (for_each ms body fr) with
      | inr _ =>
          shape_of (result (snd (for_each ms body fr))) ≠ Scalar →
          k = length ms
      | inl e => ∃ m, last (take k ms) = Some m ∧ exits m = Some e
      end.
Proof.
  revert fr. induction ms as [|m ms IH]; intros fr.
  { exists 0. simpl. by rewrite app_nil_r. }
  destruct (scalar_or_not (result fr)) as [Hs|Hs].
  { rewrite full_for_each_scalar by done. exists 0. simpl.
    split; [lia|]. split; [by rewrite app_nil_r|done]. }
  rewrite full_for_each_cons by done.
  destruct (exits m) as [e|] eqn:Hexit.
  - exists 1. simpl. split; [lia|].
    rewrite app_nil_r. split; [done|]. by exists m.
  - destruct (IH (stepped fr m)) as (k & Hk & Htrace & Hend).
    exists (S k). simpl. split; [lia|].
    split; [rewrite Htrace; cbn [trace]; by rewrite <- app_assoc|].
    destruct (fst (for_each ms body (stepped fr m))) as [e|[]].
    + destruct Hend as (m' & Hlast & Hm'). exists m'. split; [|done].
      by rewrite last_cons, Hlast.
    + intros Hshape. by rewrite (Hend Hshape).
Qed.

(** X3. The trace follows the list of modules: the run goes through the first
    [k] modules, for some [k]; the modules called are those among them that
    have the method, in the order of the list and once each; the errors
    logged are those of the ones among them that raised an exception that was
    caught and formatted, in the same order and once each.  When the caller
    gets a value that is empty or a list, [k] is the length of the list; when
    the caller gets an exception, it left the iteration of the last of the
    [k] modules. *)
Theorem run_follows_the_registry :
  ∃ k,
    k ≤ length modules
    ∧ snd (dispatch self method args kw) =
        LogDebug method :: concat (map footprint (take k modules))
    ∧ invoked (snd (dispatch self method args kw)) =
        map class_name (List.filter has_method (take k modules))
    ∧ logged_errors (snd (dispatch self method args kw)) =
        omap failure (take k modules)
    ∧ match fst (dispatch self method args kw) with
      | inr v => shape_of v ≠ Scalar → k = length modules
      | inl e => ∃ m, last (take k modules) = Some m ∧ exits m = Some e
      end.
Proof.
  destruct (full_for_each_ran modules entry) as (k & Hk & Htrace & Hend).
  destruct (for_each modules body entry) as [o fr'] eqn:Hloop.
  rewrite (full_dispatch_for_each _ _ Hloop). cbn [fst snd] in *.
  exists k. split; [done|]. rewrite Htrace. cbn [trace entry app].
  split; [done|]. split; [|split].
  - change (invoked (LogDebug method :: ?l)) with (invoked l).
    apply full_invoked_footprints.
  - change (logged_errors (LogDebug method :: ?l)) with (logged_errors l).
    apply full_logged_footprints.
  - by destruct o.
Qed.

(** X4. The first module that returns a value that is not empty decides:
    when each module before it returns an empty value or raises an exception
    that is caught and formatted, a value of it that is not a list is what
    the caller gets, and no later module is called; a list of it is followed,
    in what the caller gets, by the lists of the later modules, all of which
    are run, when no exception leaves the iteration of one of them. *)
Theorem first_contributor_decides (front : list module) (m : module)
    (rest : list module) (w : value) :
  modules = front ++ m :: rest →
  Forall (λ m', contributes m' = false ∧ exits m' = None) front →
  answer m = Returns w →
  is_result_empty w w = false →
  (isinstance_list w = false →
     dispatch self method args kw =
       (inr w,
        LogDebug method :: concat (map footprint front) ++ [invocation m]))
  ∧ (∀ ys, w = VList ys →
       Forall (λ m', exits m' = None) rest →
       dispatch self method args kw =
         (inr (VList (ys ++ concat (map items_of rest))),
          LogDebug method :: concat (map footprint (front ++ m :: rest)))).
Proof.
  intros Hms Hfront Hm Hw.
  destruct (full_for_each_passed front (m :: rest) entry eq_refl Hfront)
    as [Hloop Hempty].
  rewrite full_for_each_cons in Hloop
    by (cbn [result]; by rewrite (proj2 (shape_of_absent _) Hempty)).
  rewrite (full_exits_returns Hm) in Hloop. cbn [result trace] in Hloop.
  rewrite (full_next_returns Hm Hempty), (full_footprint_returns Hm) in Hloop.
  rewrite <- Hms in Hloop. split.
  - intros Hl. rewrite (full_for_each_scalar rest) in Hloop
      by (cbn [result]; by apply shape_of_scalar).
    by rewrite (full_dispatch_for_each _ _ Hloop).
  - intros ys -> Hrest. rewrite (full_for_each_list rest) in Hloop by done.
    rewrite (full_dispatch_for_each _ _ Hloop). simpl.
    rewrite List.map_app, concat_app. simpl.
    by rewrite (full_footprint_returns Hm), <- !app_assoc.
Qed.

(** A loop that starts from an empty [result] and ends normally with an
    empty [result] went through modules that returned empty values or raised
    exceptions that were caught. *)
Lemma full_for_each_empty_inv (ms : list module) (fr : frame) :
  is_result_empty (result fr) (result fr) = true →
  fst (for_each ms body fr) = inr tt →
  is_result_empty (result (snd (for_each ms body fr)))
    (result (snd (for_each ms body fr))) = true →
  Forall (λ m, contributes m = false ∧ exits m = None) ms.
Proof.
  revert fr. induction ms as [|m ms IH]; intros fr Hempty; [by constructor|].
  rewrite full_for_each_cons by (by rewrite (proj2 (shape_of_absent _) Hempty)).
  destruct (exits m) as [e|] eqn:Hexit; [done|]. intros Hend Hlast.
  destruct (contributes m) eqn:Hm.
  - pose proof (full_for_each_nonempty ms (stepped fr m)) as Hnon.
    rewrite Hnon in Hlast; [done|]. cbn [result].
    unfold contributes, next in *. rewrite Hempty.
    destruct (answer m) as [v|]; [|done]. by destruct (is_result_empty v v).
  - constructor; [done|]. apply (IH (stepped fr m)); [|done|done].
    by apply full_next_no_contribution.
Qed.

(** A loop that ends normally over modules none of which returns a value
    that is not empty met no exception that left an iteration. *)
Lemma full_for_each_no_exit (ms : list module) (fr : frame) :
  is_result_empty (result fr) (result fr) = true →
  fst (for_each ms body fr) = inr tt →
  Forall (λ m, contributes m = false) ms →
  Forall (λ m, contributes m = false ∧ exits m = None) ms.
Proof.
  intros Hempty Hend Hall. revert fr Hempty Hend.
  induction Hall as [|m ms Hm _ IH]; intros fr Hempty; [by constructor|].
  rewrite full_for_each_cons by (by rewrite (proj2 (shape_of_absent _) Hempty)).
  destruct (exits m) as [e|] eqn:Hexit; [done|]. intros Hend.
  constructor; [done|]. apply (IH (stepped fr m)); [|done].
  by apply full_next_no_contribution.
Qed.

(** X6. When the caller gets a value, the value is empty exactly when no
    module returns a value that is not empty; every module was then run, no
    exception left an iteration, and the value is the one of the last module
    that returned, or [None] when every lookup or call raised. *)
Theorem empty_result_iff_no_contribution (v : value) (tr : list event) :
  dispatch self method args kw = (inr v, tr) →
  (is_result_empty v v = true ↔ Forall (λ m, contributes m = false) modules)
  ∧ (is_result_empty v v = true →
     v = default VNone (last (omap returned modules))
     ∧ tr = LogDebug method :: concat (map footprint modules)
     ∧ Forall (λ m, exits m = None) modules).
Proof.
  intros Hd. destruct (for_each modules body entry) as [o fr'] eqn:Hloop.
  rewrite (full_dispatch_for_each _ _ Hloop) in Hd.
  destruct o as [e|[]]; [done|]. injection Hd as <- <-.
  assert (Hpassed :
    Forall (λ m, contributes m = false ∧ exits m = None) modules →
    is_result_empty (result fr') (result fr') = true
    ∧ result fr' = default VNone (last (omap returned modules))
    ∧ trace fr' = LogDebug method :: concat (map footprint modules)).
  { intros Hall.
    destruct (full_for_each_passed modules [] entry eq_refl Hall)
      as [Hrun Hempty].
    rewrite app_nil_r, Hloop in Hrun. injection Hrun as ->. done. }
  assert (Hinv : is_result_empty (result fr') (result fr') = true →
    Forall (λ m, contributes m = false ∧ exits m = None) modules).
  { intros Hv. apply (full_for_each_empty_inv modules entry eq_refl);
      by rewrite Hloop. }
  split; [split|].
  - intros Hv. eapply Forall_impl; [exact (Hinv Hv)|]. by intros m [? _].
  - intros Hall. apply Hpassed.
    apply (full_for_each_no_exit modules entry eq_refl); [|done].
    by rewrite Hloop.
  - intros Hv. destruct (Hpassed (Hinv Hv)) as (_ & ? & ?).
    do 2 (split; [done|]).
    eapply Forall_impl; [exact (Hinv Hv)|]. by intros m [_ ?].
Qed.

Lemma full_next_same_returned (r : value) (m m' : module) :
  returned m = returned m' → next r m = next r m'.
Proof.
  unfold returned, next, items_of.
  destruct (answer m), (answer m'); intros [=]; by subst.
Qed.

(** X7. What the caller gets depends on the modules only through what their
    calls return and through the exceptions that leave their iterations: two
    lists of modules that agree on both, place by place, give the caller the
    same value or the same exception, whatever the classes of the modules,
    their other attributes and the exceptions that were caught and
    logged. *)
Theorem outcome_depends_on_returns_and_exits (self' : ChainBase) :
  Forall2 (λ m m', returned m = returned m' ∧ exits m = exits m')
    modules (get_modules (modulemanager self') method) →
  fst (dispatch self method args kw) = fst (dispatch self' method args kw).
Proof.
  assert (Hloops : ∀ ms ms' fr fr',
    Forall2 (λ m m', returned m = returned m' ∧ exits m = exits m') ms ms' →
    result fr = result fr' →
    fst (for_each ms body fr) = fst (for_each ms' body fr')
    ∧ result (snd (for_each ms body fr)) =
      result (snd (for_each ms' body fr'))).
  { intros ms ms' fr fr' Hall. revert fr fr'.
    induction Hall as [|m m' ms ms' [Hret Hexit] _ IH]; intros fr fr' Hr;
      [done|].
    destruct (scalar_or_not (result fr)) as [Hs|Hs].
    { by rewrite !full_for_each_scalar by (by rewrite <- ?Hr). }
    rewrite !full_for_each_cons by (by rewrite <- ?Hr).
    rewrite <- Hexit, <- Hr, <- (full_next_same_returned _ _ _ Hret).
    destruct (exits m); [done|]. by apply IH. }
  intros Hall.
  destruct (Hloops _ _ entry entry Hall eq_refl) as [Hout Hres].
  destruct (for_each modules body entry) as [o fr1] eqn:H1.
  destruct (for_each (get_modules (modulemanager self') method) body entry)
    as [o' fr1'] eqn:H2.
  rewrite (full_dispatch_for_each _ _ H1).
  unfold dispatch, run_module, logger_debug, emit, set_result,
    get_result, mbind, M_bind; simpl.
  change (Frame VNone [LogDebug method]) with entry.
  rewrite H2. simpl in Hout, Hres. subst o'.
  destruct o; simpl; [done|]. by rewrite Hres.
Qed.

End Run.
(** *** The theorems at concrete modules *)

(** C3, as the claim has it, fails.  A module that raises
    [KeyboardInterrupt], which is not an instance of [Exception]: the
    exception reaches the caller and the next module, which would return
    ["X"], is not called.  And a raise is not a returned [None]: after a
    module that returned [(None, None)], a module that raises leaves
    [(None, None)] to the caller, and a module that returns [None] leaves
    [None]. *)
Lemma raise_is_not_always_isolated :
  dispatch
    (chain_of [const_module "P1" "transfer" (Raises KeyboardInterrupt);
               const_module "P2" "transfer" (Returns (VStr "X"))])
    "transfer" [] ∅ =
    (inl KeyboardInterrupt,
     [LogDebug "transfer"; Invoke "P1" "transfer" [] ∅])
  ∧ fst (dispatch
      (chain_of
         [const_module "P1" "prepare_recognize" (Returns (VTuple [VNone; VNone]));
          const_module "P2" "prepare_recognize"
            (Raises (error "ValueError" "bad title"))])
      "prepare_recognize" [] ∅) = inr (VTuple [VNone; VNone])
  ∧ fst (dispatch
      (chain_of
         [const_module "P1" "prepare_recognize" (Returns (VTuple [VNone; VNone]));
          const_module "P2" "prepare_recognize" (Returns VNone)])
      "prepare_recognize" [] ∅) = inr VNone.
Proof. repeat split. Qed.

Lemma caught_raise_is_isolated_witness :
  dispatch
    (chain_of
       [const_module "P1" "transfer" (Raises (error "OSError" "disk full"));
        const_module "P2" "transfer" (Returns (VStr "X"))])
    "transfer" [] ∅ =
    (inr (VStr "X"),
     [LogDebug "transfer";
      Invoke "P1" "transfer" [] ∅;
      PrintExc (error "OSError" "disk full");
      LogError "transfer" "P1" "disk full";
      Invoke "P2" "transfer" [] ∅])
  ∧ fst (dispatch
      (chain_of
         [const_module "P1" "transfer" (Raises (error "OSError" "disk full"));
          const_module "P2" "transfer" (Returns (VStr "X"))])
      "transfer" [] ∅) =
    fst (dispatch
      (chain_of [const_module "P2" "transfer" (Returns (VStr "X"))])
      "transfer" [] ∅)
  ∧ for_each
      [const_module "P1" "transfer" (Raises KeyboardInterrupt);
       const_module "P2" "transfer" (Returns (VStr "X"))]
      (loop_body "transfer" [] ∅)
      {| result := VList [VInt 1]; trace := [] |} =
    (inl KeyboardInterrupt,
     {| result := VList [VInt 1];
        trace := [Invoke "P1" "transfer" [] ∅] |}).
Proof.
  destruct (caught_raise_is_isolated
    (chain_of
       [const_module "P1" "transfer" (Raises (error "OSError" "disk full"));
        const_module "P2" "transfer" (Returns (VStr "X"))])
    "transfer" [] ∅) as (_ & _ & Hskip & _ & Hcall & Hout).
  split; [|split].
  - exact (Hcall _ _ (error "OSError" "disk full")
      eq_refl eq_refl eq_refl eq_refl).
  - apply Hskip. reflexivity.
  - refine (Hout (const_module "P1" "transfer" (Raises KeyboardInterrupt))
      [const_module "P2" "transfer" (Returns (VStr "X"))]
      KeyboardInterrupt {| result := VList [VInt 1]; trace := [] |}
      eq_refl eq_refl _).
    discriminate.
Defined.

(** C6, as the claim has it, fails.  With no module the caller gets [None];
    with one module that returns [(None, None)], which is empty for
    [is_result_empty], the caller gets [(None, None)]: the two values differ.
    And when every module raises [KeyboardInterrupt], the caller gets the
    exception. *)
Lemma empty_cases_differ :
  is_result_empty (VTuple [VNone; VNone]) (VTuple [VNone; VNone]) = true
  ∧ fst (dispatch (chain_of []) "prepare_recognize" [] ∅) = inr VNone
  ∧ fst (dispatch
      (chain_of
         [const_module "P1" "prepare_recognize"
            (Returns (VTuple [VNone; VNone]))])
      "prepare_recognize" [] ∅) = inr (VTuple [VNone; VNone])
  ∧ fst (dispatch (chain_of []) "prepare_recognize" [] ∅) ≠
    fst (dispatch
      (chain_of
         [const_module "P1" "prepare_recognize"
            (Returns (VTuple [VNone; VNone]))])
      "prepare_recognize" [] ∅)
  ∧ fst (dispatch
      (chain_of
         [const_module "P1" "prepare_recognize" (Raises KeyboardInterrupt)])
      "prepare_recognize" [] ∅) = inl KeyboardInterrupt.
Proof. split; [done|]. split; [done|]. split; [done|]. split; done. Qed.

Lemma empty_results_by_case_witness :
  dispatch (chain_of []) "media_exists" [] ∅ =
    (inr VNone, [LogDebug "media_exists"])
  ∧ dispatch
      (chain_of
         [const_module "P1" "media_exists" (Raises (error "OSError" "timeout"));
          const_module "P2" "refresh_mediaserver" (Returns (VBool true))])
      "media_exists" [] ∅ =
    (inr VNone,
     [LogDebug "media_exists";
      Invoke "P1" "media_exists" [] ∅;
      PrintExc (error "OSError" "timeout");
      LogError "media_exists" "P1" "timeout";
      PrintExc (AttributeError "P2" "media_exists");
      LogError "media_exists" "P2"
        "'P2' object has no attribute 'media_exists'"])
  ∧ fst (dispatch
      (chain_of [const_module "P1" "media_exists" (Returns VNone);
                 const_module "P2" "media_exists" (Returns VNone)])
      "media_exists" [] ∅) = inr VNone.
Proof.
  split; [|split].
  - destruct (empty_results_by_case (chain_of []) "media_exists" [] ∅)
      as (Hnone & _).
    apply Hnone. reflexivity.
  - destruct (empty_results_by_case
      (chain_of
         [const_module "P1" "media_exists" (Raises (error "OSError" "timeout"));
          const_module "P2" "refresh_mediaserver" (Returns (VBool true))])
      "media_exists" [] ∅) as (_ & Hraise & _).
    apply Hraise. repeat constructor.
    + by exists (error "OSError" "timeout").
    + by exists (AttributeError "P2" "media_exists").
  - destruct (empty_results_by_case
      (chain_of [const_module "P1" "media_exists" (Returns VNone);
                 const_module "P2" "media_exists" (Returns VNone)])
      "media_exists" [] ∅) as (_ & _ & _ & Hnones).
    apply Hnones. repeat constructor.
Defined.

Lemma unprintable_exception_ends_the_run_witness :
  dispatch
    (chain_of
       [const_module "P1" "transfer"
          (Raises (unprintable "BadStr" (error "RuntimeError" "no text")));
        const_module "P2" "transfer" (Returns (VStr "X"))])
    "transfer" [] ∅ =
    (inl (error "RuntimeError" "no text"),
     [LogDebug "transfer"; Invoke "P1" "transfer" [] ∅]).
Proof.
  destruct (unprintable_exception_ends_the_run
    (chain_of
       [const_module "P1" "transfer"
          (Raises (unprintable "BadStr" (error "RuntimeError" "no text")));
        const_module "P2" "transfer" (Returns (VStr "X"))])
    "transfer" [] ∅) as [_ Hcall].
  exact (Hcall _ _ (unprintable "BadStr" (error "RuntimeError" "no text"))
    (error "RuntimeError" "no text") eq_refl eq_refl eq_refl eq_refl).
Defined.

Lemma run_follows_the_registry_witness :
  invoked (snd (dispatch
    (chain_of
       [const_module "P1" "list_torrents" (Returns (VList [VInt 1]));
        const_module "P2" "remove_torrents" (Returns (VBool true));
        const_module "P3" "list_torrents" (Raises (error "OSError" "timeout"))])
    "list_torrents" [] ∅)) = ["P1"; "P3"]
  ∧ logged_errors (snd (dispatch
      (chain_of
         [const_module "P1" "list_torrents" (Returns (VList [VInt 1]));
          const_module "P2" "remove_torrents" (Returns (VBool true));
          const_module "P3" "list_torrents"
            (Raises (error "OSError" "timeout"))])
      "list_torrents" [] ∅)) =
    [("P2", "'P2' object has no attribute 'list_torrents'");
     ("P3", "timeout")].
Proof.
  destruct (run_follows_the_registry
    (chain_of
       [const_module "P1" "list_torrents" (Returns (VList [VInt 1]));
        const_module "P2" "remove_torrents" (Returns (VBool true));
        const_module "P3" "list_torrents" (Raises (error "OSError" "timeout"))])
    "list_torrents" [] ∅) as (k & _ & _ & Hinvoked & Hlogged & Hend).
  assert (k = 3) as ->.
  { apply (Hend : shape_of (VList [VInt 1]) ≠ Scalar → k = 3). discriminate. }
  split; [exact Hinvoked|exact Hlogged].
Defined.

Lemma first_contributor_decides_witness :
  dispatch
    (chain_of
       [const_module "P1" "transfer" (Raises (error "OSError" "disk full"));
        const_module "P2" "transfer" (Returns VNone);
        const_module "P3" "transfer" (Returns (VStr "X"));
        const_module "P4" "transfer" (Raises KeyboardInterrupt)])
    "transfer" [] ∅ =
    (inr (VStr "X"),
     [LogDebug "transfer";
      Invoke "P1" "transfer" [] ∅;
      PrintExc (error "OSError" "disk full");
      LogError "transfer" "P1" "disk full";
      Invoke "P2" "transfer" [] ∅;
      Invoke "P3" "transfer" [] ∅]).
Proof.
  refine (proj1 (first_contributor_decides
    (chain_of
       [const_module "P1" "transfer" (Raises (error "OSError" "disk full"));
        const_module "P2" "transfer" (Returns VNone);
        const_module "P3" "transfer" (Returns (VStr "X"));
        const_module "P4" "transfer" (Raises KeyboardInterrupt)])
    "transfer" [] ∅
    [const_module "P1" "transfer" (Raises (error "OSError" "disk full"));
     const_module "P2" "transfer" (Returns VNone)]
    (const_module "P3" "transfer" (Returns (VStr "X")))
    [const_module "P4" "transfer" (Raises KeyboardInterrupt)]
    (VStr "X") eq_refl _ eq_refl eq_refl) eq_refl).
  repeat constructor.
Defined.

Lemma empty_result_iff_no_contribution_witness :
  VTuple [VNone; VNone] =
    default VNone (last (omap (returned "prepare_recognize" [] ∅)
      [const_module "P1" "prepare_recognize" (Returns (VTuple [VNone; VNone]));
       const_module "P2" "prepare_recognize"
         (Raises (error "ValueError" "bad title"))]))
  ∧ Forall (λ m, exits "prepare_recognize" [] ∅ m = None)
      [const_module "P1" "prepare_recognize" (Returns (VTuple [VNone; VNone]));
       const_module "P2" "prepare_recognize"
         (Raises (error "ValueError" "bad title"))].
Proof.
  destruct (empty_result_iff_no_contribution
    (chain_of
       [const_module "P1" "prepare_recognize" (Returns (VTuple [VNone; VNone]));
        const_module "P2" "prepare_recognize"
          (Raises (error "ValueError" "bad title"))])
    "prepare_recognize" [] ∅
    (VTuple [VNone; VNone])
    [LogDebug "prepare_recognize";
     Invoke "P1" "prepare_recognize" [] ∅;
     Invoke "P2" "prepare_recognize" [] ∅;
     PrintExc (error "ValueError" "bad title");
     LogError "prepare_recognize" "P2" "bad title"]
    eq_refl) as [_ Hlast].
  destruct (Hlast eq_refl) as (Hv & _ & Hexits).
  split; [exact Hv|exact Hexits].
Defined.

Lemma outcome_depends_on_returns_and_exits_witness :
  fst (dispatch
    (chain_of
       [const_module "Douban" "recognize_media"
          (Raises (error "OSError" "timeout"));
        const_module "TheMovieDb" "recognize_media" (Returns (VStr "X"))])
    "recognize_media" [] ∅) =
  fst (dispatch
    (chain_of
       [const_module "Slack" "post_message" (Returns (VBool true));
        const_module "Fanart" "recognize_media" (Returns (VStr "X"))])
    "recognize_media" [] ∅).
Proof.
  apply outcome_depends_on_returns_and_exits. repeat constructor.
Defined.
End FullRun.

(** ** The first runs are the runs of [Full] in which every exception is an
    instance of [Exception] that [str] formats *)

Section Agreement.
Context (method : string) (args : list value) (kw : kwargs).

Lemma full_answer_module (m : module) :
  Full.answer method args kw (full_module m) =
    full_outcome (answer method args kw m).
Proof.
  unfold Full.answer, answer, full_module. simpl. rewrite lookup_fmap.
  by destruct (attrs m !! method).
Qed.

Lemma full_exits_module (m : module) :
  Full.exits method args kw (full_module m) = None.
Proof.
  unfold Full.exits. rewrite full_answer_module.
  by destruct (answer method args kw m).
Qed.

Lemma full_footprint_module (m : module) :
  Full.footprint method args kw (full_module m) =
    concat (map full_events (footprint method args kw m)).
Proof.
  unfold Full.footprint, footprint, full_module. simpl. rewrite lookup_fmap.
  destruct (attrs m !! method) as [f|]; simpl; [|done].
  by destruct (f args kw).
Qed.

Lemma full_next_module_absent (r : value) (m : module) :
  is_result_empty r r = true →
  Full.next method args kw r (full_module m) = taken method args kw r m.
Proof.
  intros Hr. unfold Full.next, taken. rewrite Hr, full_answer_module.
  by destruct (answer method args kw m).
Qed.

Lemma full_next_module_list (xs : list value) (m : module) :
  Full.next method args kw (VList xs) (full_module m) =
    VList (xs ++ items_of method args kw m).
Proof.
  unfold Full.next, Full.items_of, items_of. simpl.
  rewrite full_answer_module. by destruct (answer method args kw m).
Qed.

(** The loop of the first definitions and the loop of [Full] go the same
    way. *)
Lemma for_each_agrees (ms : list module) (fr : frame) :
  ∃ fr',
    for_each ms (loop_body method args kw) fr = (inr tt, fr')
    ∧ Full.for_each (map full_module ms) (Full.loop_body method args kw)
        (full_frame fr) = (inr tt, full_frame fr').
Proof.
  revert fr. induction ms as [|m ms IH]; intros fr; [by exists fr|].
  destruct (shape_of (result fr)) eqn:Hs.
  - apply shape_of_absent in Hs.
    destruct (IH {| result := taken method args kw (result fr) m;
                    trace := trace fr ++ footprint method args kw m |})
      as (fr' & Hloop & Hfull).
    exists fr'. rewrite for_each_cons_absent by done. split; [done|].
    change (map full_module (m :: ms)) with (full_module m :: map full_module ms).
    rewrite FullRun.full_for_each_cons
      by (simpl; by rewrite (proj2 (shape_of_absent _) Hs)).
    rewrite full_exits_module, <- Hfull. unfold full_frame. simpl.
    by rewrite full_next_module_absent, full_footprint_module,
      List.map_app, concat_app by done.
  - apply shape_of_sequence in Hs as [xs Hxs]. destruct fr as [r tr].
    simpl in Hxs; subst r.
    destruct (IH {| result := VList (xs ++ items_of method args kw m);
                    trace := tr ++ footprint method args kw m |})
      as (fr' & Hloop & Hfull).
    exists fr'. split.
    + simpl. unfold mbind, M_bind at 1. by rewrite loop_body_list.
    + change (map full_module (m :: ms))
        with (full_module m :: map full_module ms).
      rewrite FullRun.full_for_each_cons by done.
      rewrite full_exits_module, <- Hfull. unfold full_frame. simpl.
      by rewrite full_next_module_list, full_footprint_module,
        List.map_app, concat_app.
  - exists fr. rewrite for_each_scalar by done. split; [done|].
    by rewrite FullRun.full_for_each_scalar.
Qed.

(** A run of the first definitions is the run of [Full] over the same
    modules: the same value for the caller, and the same trace, with the
    traceback and the text for each error line. *)
Lemma dispatch_agrees (self : ChainBase) :
  ∃ v tr,
    dispatch self method args kw = (inr v, tr)
    ∧ Full.dispatch (full_chain self) method args kw =
        (inr v, concat (map full_events tr)).
Proof.
  destruct (for_each_agrees (get_modules (modulemanager self) method)
    (entry method)) as (fr' & Hloop & Hfull).
  exists (result fr'), (trace fr'). split; [by apply dispatch_for_each|].
  by rewrite (FullRun.full_dispatch_for_each (full_chain self) method args kw
    (inr tt) (full_frame fr') Hfull).
Qed.
End Agreement.
